(** * Teacup (450lang): lexer, prefix tagger, operator-precedence parser and
    tree-walking interpreter of [teacup.js], embedded in Rocq.

    The embedding follows the JavaScript source function by function.
    - Strings are [string]; a token is the record [{type, text, start, end}].
    - Regular expressions are a small syntax ([regex]) run by a backtracking
      matcher with ECMAScript's priorities (first alternative first, greedy
      star, an iteration that consumes nothing is refused).
    - JavaScript numbers are binary64 floats ([PrimFloat.float]).
    - Environments are objects linked by their prototype: a store of frames,
      each a finite map from names to values with a parent pointer.
    - [throw] is the outcome [Throw]; the loops of the parser and of the
      evaluator run on fuel, with [OutOfFuel] as outcome when it runs out. *)

From Stdlib Require Import String Ascii List ZArith Bool Lia.
From Stdlib Require Import PrimFloat SpecFloat FloatOps.
From stdpp Require Import gmap strings list.
Import ListNotations.

Set Default Proof Using "Type".
Set Warnings "-register-all".
Local Open Scope string_scope.
Local Open Scope list_scope.

(** ** Characters and strings *)

Definition newline : ascii := "010"%char.
Definition dquote : ascii := "034"%char.

Definition one (c : ascii) : string := String c EmptyString.

(** [s.includes(c)] for a single character. *)
Fixpoint mem_char (c : ascii) (s : string) : bool :=
  match s with
  | EmptyString => false
  | String d s' => Ascii.eqb c d || mem_char c s'
  end.

Definition between (lo hi c : ascii) : bool :=
  (nat_of_ascii lo <=? nat_of_ascii c)%nat && (nat_of_ascii c <=? nat_of_ascii hi)%nat.

(** [\d] and [\w] (the regular expressions of the source carry no flag, so
    both are ASCII only). *)
Definition is_digit (c : ascii) : bool := between "0" "9" c.
Definition is_word (c : ascii) : bool :=
  between "a" "z" c || between "A" "Z" c || is_digit c || Ascii.eqb c "_".

(** [Array.prototype.join]. *)
Fixpoint join (sep : string) (l : list string) : string :=
  match l with
  | [] => ""
  | [x] => x
  | x :: rest => x +:+ sep +:+ join sep rest
  end.

(** ** Outcomes: a returned value or a thrown exception *)

Inductive error : Type :=
| SyntaxError (msg : string)
| ReferenceError (msg : string)
| TypeError
| RangeError
| Error (msg : string).

Inductive outcome (A : Type) : Type :=
| Ret (a : A)              (* normal completion *)
| Throw (e : error)        (* a JavaScript exception *)
| OutOfFuel                (* the fuel of a loop of the model ran out *)
| Unmodelled.              (* a host operation outside the modelled fragment *)
Arguments Ret {A} a.
Arguments Throw {A} e.
Arguments OutOfFuel {A}.
Arguments Unmodelled {A}.

Definition obind {A B} (x : outcome A) (f : A -> outcome B) : outcome B :=
  match x with
  | Ret a => f a
  | Throw e => Throw e
  | OutOfFuel => OutOfFuel
  | Unmodelled => Unmodelled
  end.

Notation "'let*' x ':=' c 'in' k" := (obind c (fun x => k))
  (at level 10, x pattern, c at level 100, k at level 200).

(** ** Regular expressions *)

Inductive regex : Type :=
| Empty                        (* the empty pattern *)
| Class (p : ascii -> bool)    (* one character of a class *)
| Cat (r1 r2 : regex)          (* r1 r2 *)
| Or (r1 r2 : regex)           (* r1|r2 *)
| Star (r : regex)             (* r*, greedy *)
| Bol                          (* ^ *)
| Eol                          (* $ *)
| WordBoundary                 (* \b *)
| Ahead (r : regex).           (* (?=r) *)

Definition Chr (c : ascii) : regex := Class (Ascii.eqb c).
Definition OneOf (s : string) : regex := Class (fun c => mem_char c s).
Definition NoneOf (s : string) : regex := Class (fun c => negb (mem_char c s)).
Definition Plus (r : regex) : regex := Cat r (Star r).       (* r+ *)
Definition Opt (r : regex) : regex := Or r Empty.            (* r? *)
(** [.] matches everything but a line terminator. *)
Definition Dot : regex := Class (fun c => negb (Ascii.eqb c newline || Ascii.eqb c "013")).

Fixpoint Lit (s : string) : regex :=
  match s with
  | EmptyString => Empty
  | String c s' => Cat (Chr c) (Lit s')
  end.

Fixpoint Alts (rs : list regex) : regex :=
  match rs with
  | [] => Class (fun _ => false)
  | [r] => r
  | r :: rest => Or r (Alts rest)
  end.

Definition is_word_opt (c : option ascii) : bool :=
  match c with Some c => is_word c | None => false end.

Definition head_char (s : string) : option ascii :=
  match s with String c _ => Some c | EmptyString => None end.

(** The loop of a greedy star over the matcher [m] of its body: one more
    iteration first, the continuation [k] when that fails; an iteration that
    consumes nothing is refused.  [n] bounds the iterations by the length of
    the input. *)
Fixpoint star_iter
    (m : (option ascii -> string -> option string) -> option ascii -> string -> option string)
    (k : option ascii -> string -> option string)
    (n : nat) (prev : option ascii) (s : string) {struct n} : option string :=
  match n with
  | O => k prev s
  | S n' =>
      match m (fun prev' s' =>
                 if (String.length s' <? String.length s)%nat
                 then star_iter m k n' prev' s' else None) prev s with
      | Some e => Some e
      | None => k prev s
      end
  end.

(** The matcher, in continuation-passing style: [rmatch r k prev s] runs [r]
    on the input [s] whose preceding character is [prev], and hands what is
    left to [k]; the first success in the order of ECMAScript's backtracking
    is the answer (the input that remains after the match). *)
Fixpoint rmatch (r : regex) (k : option ascii -> string -> option string)
    (prev : option ascii) (s : string) {struct r} : option string :=
  match r with
  | Empty => k prev s
  | Class p =>
      match s with
      | String c s' => if p c then k (Some c) s' else None
      | EmptyString => None
      end
  | Cat r1 r2 => rmatch r1 (rmatch r2 k) prev s
  | Or r1 r2 =>
      match rmatch r1 k prev s with
      | Some e => Some e
      | None => rmatch r2 k prev s
      end
  | Star r1 => star_iter (rmatch r1) k (String.length s) prev s
  | Bol => match prev with None => k prev s | Some _ => None end
  | Eol => match s with EmptyString => k prev s | String _ _ => None end
  | WordBoundary =>
      if xorb (is_word_opt prev) (is_word_opt (head_char s)) then k prev s else None
  | Ahead r1 =>
      match rmatch r1 (fun _ s' => Some s') prev s with
      | Some _ => k prev s
      | None => None
      end
  end.

(** A match anchored at the current position: what is left of the input. *)
Definition match_here (r : regex) (prev : option ascii) (s : string) : option string :=
  rmatch r (fun _ s' => Some s') prev s.

(** [str.match(re)] as a truth value: is there a match starting anywhere? *)
Fixpoint search_from (r : regex) (prev : option ascii) (s : string) : bool :=
  match match_here r prev s with
  | Some _ => true
  | None =>
      match s with
      | EmptyString => false
      | String c s' => search_from r (Some c) s'
      end
  end.

Definition test (r : regex) (s : string) : bool := search_from r None s.

(** ** Lexer *)

(** [this.re] is the alternation of one capture group per token definition and
    [this.types] names the group of each position ([None] is JavaScript's
    [null], the unmatched text between two matches). *)
Record Lexer := {
  re : list regex;
  types : list (option string)
}.

Definition newLexer (tokenDefinitions : list (string * regex)) : Lexer :=
  {| re := map snd tokenDefinitions;
     types := None :: map (fun d => Some (fst d)) tokenDefinitions |}.

(** The first group of the alternation that matches at this position: its
    index and the input left after it. *)
Fixpoint first_group (rs : list regex) (i : nat) (prev : option ascii) (s : string)
  : option (nat * string) :=
  match rs with
  | [] => None
  | r :: rest =>
      match match_here r prev s with
      | Some s' => Some (i, s')
      | None => first_group rest (S i) prev s
      end
  end.

(** The captures of one match: the text of group [g], [undefined] ([None])
    for the other groups. *)
Definition captures (n g : nat) (m : string) : list (option string) :=
  map (fun i => if (i =? g)%nat then Some m else None) (seq 0 n).

(** [text.split(re)] for a regular expression with capture groups: the
    pieces between the matches, each match's captures spliced in between.
    [skip] counts the characters of the current match still to pass over and
    [gap] is the unmatched text since the last match.  A match that is empty
    and sits where the last one ended is refused, as in ECMAScript. *)
Fixpoint split_from (rs : list regex) (prev : option ascii) (skip : nat) (gap : string)
    (s : string) : list (option string) :=
  match s with
  | EmptyString => [Some gap]
  | String c s' =>
      match skip with
      | S n => split_from rs (Some c) n gap s'
      | O =>
          match first_group rs 0 prev s with
          | Some (g, rest) =>
              let len := (String.length s - String.length rest)%nat in
              if (len =? 0)%nat then
                if String.eqb gap "" then split_from rs (Some c) 0 (one c) s'
                else Some gap :: captures (length rs) g "" ++
                       split_from rs (Some c) 0 (one c) s'
              else Some gap :: captures (length rs) g (substring 0 len s) ++
                     split_from rs (Some c) (len - 1) "" s'
          | None => split_from rs (Some c) 0 (gap +:+ one c) s'
          end
      end
  end.

Definition split (rs : list regex) (text : string) : list (option string) :=
  split_from rs None 0 "" text.

Record token := Token {
  type : string;
  text : string;
  start : nat;
  end_ : nat
}.

(** The objects built by [.map((token, i) => ...)], before the filter. *)
Record piece := Piece {
  ptype : option string;
  ptext : option string;
  pstart : nat;
  pend : nat
}.

Definition strlen (t : option string) : nat :=   (* (token || "").length *)
  match t with Some s => String.length s | None => 0 end.

Fixpoint map_pieces (types : list (option string)) (i pos : nat) (l : list (option string))
  : list piece :=
  match l with
  | [] => []
  | t :: rest =>
      Piece (default None (types !! (i mod length types))) t pos (pos + strlen t)
        :: map_pieces types (S i) (pos + strlen t) rest
  end.

(** [t.type && t.type !== "comment" && t.text]: the pieces kept as tokens. *)
Definition keep (p : piece) : option token :=
  match ptype p, ptext p with
  | Some ty, Some tx =>
      if String.eqb ty "" || String.eqb ty "comment" || String.eqb tx "" then None
      else Some (Token ty tx (pstart p) (pend p))
  | _, _ => None
  end.

Definition Lexer_process (L : Lexer) (text : string) : list token :=
  omap keep (map_pieces (types L) 0 0 (split (re L) text)).

(** ** Teacup's token definitions *)

Definition keywords (ws : list string) : regex :=   (* \b(?:w1|w2|...)\b *)
  Cat WordBoundary (Cat (Alts (map Lit ws)) WordBoundary).

Definition operator_chars : string := "!@$%^&*|/?.:~+=<>-".

Definition Teacup_tokenDefinitions : list (string * regex) :=
  [ ("number",
      Cat (Plus (Class is_digit))
        (Cat (Opt (Cat (Chr ".") (Plus (Class is_digit))))
             (Opt (Cat (OneOf "eE") (Cat (Opt (OneOf "+-")) (Plus (Class is_digit)))))));
    ("open", Or (OneOf "([{") (keywords ["let"; "for"; "if"; "begin"]));
    ("middle", keywords ["then"; "elif"; "else"; "in"; "do"; "when"]);
    ("close", Or (OneOf ")]}") (keywords ["end"]));
    ("infix",
      Or (OneOf (String "," (String ";" (one newline))))
        (Or (Plus (OneOf operator_chars)) (keywords ["and"; "or"; "not"])));
    ("word", Plus (Class is_word));
    ("string",
      Cat (Chr dquote)
        (Cat (Star (Or (NoneOf (one dquote)) (Cat (Chr "\") Dot))) (Chr dquote)));
    ("comment",
      Cat (Chr "#") (Cat (Star (NoneOf (one newline))) (Ahead (Or (Chr newline) Eol)))) ].

Definition Teacup_lexer : Lexer := newLexer Teacup_tokenDefinitions.

(** ** Prefix operators *)

Definition set_type (ty : string) (t : token) : token :=
  Token ty (text t) (start t) (end_ t).

(** The loop of [tagPrefixOperators]; the array is mutated in place in the
    source, the tokens of the lexer being distinct objects, and returned. *)
Fixpoint tag_loop (prevType : string) (tokens : list token) : list token :=
  match tokens with
  | [] => []
  | token :: rest =>
      if String.eqb prevType "start" && String.eqb (type token) "open" then
        token :: tag_loop (type token) rest
      else if String.eqb (type token) "infix"
              && (String.eqb prevType "infix" || String.eqb prevType "open") then
        set_type "prefix" token :: tag_loop (type token) rest
      else
        token :: tag_loop (type token) rest
  end.

Definition tagPrefixOperators (tokens : list token) : list token :=
  tag_loop "start" tokens.

(** ** Syntax trees *)

(** A node is a token (a leaf) or the object built by [finalize]. *)
Inductive node : Type :=
| Tok (t : token)
| Ast (type : string) (args : list node) (ops : list node) (start end_ : nat).

(** An entry of a handle: [null], [undefined] or an object. *)
Inductive slot : Type :=
| Null
| Undefined
| Obj (n : node).

Definition node_type (n : node) : string :=
  match n with Tok t => type t | Ast ty _ _ _ _ => ty end.

(** [n.text]; a finalized node has no such property. *)
Definition node_text (n : node) : option string :=
  match n with Tok t => Some (text t) | Ast _ _ _ _ _ => None end.

Definition node_args (n : node) : list node :=    (* node.args || [] *)
  match n with Tok _ => [] | Ast _ args _ _ _ => args end.

Definition node_start (n : node) : nat :=
  match n with Tok t => start t | Ast _ _ _ s _ => s end.

Definition node_end (n : node) : nat :=
  match n with Tok t => end_ t | Ast _ _ _ _ e => e end.

(** [String(x)] of a property that may be [undefined], as [+] does. *)
Definition str_of (s : option string) : string := default "undefined" s.

Definition truthy_slot (x : slot) : bool :=
  match x with Obj _ => true | _ => false end.

(** [a[i]]: [undefined] outside the array. *)
Definition at_index (a : list slot) (i : nat) : slot := default Undefined (a !! i).

(** ** Parser *)

Record prio := { left : Z; right : Z }.

Record Parser := {
  priorities : gmap string prio;
  finalizer : list slot -> outcome slot
}.

Definition getPrio (P : Parser) (t : node) : outcome prio :=
  match priorities P !! (node_type t +:+ ":" +:+ str_of (node_text t)) with
  | Some x => Ret x
  | None =>
      match (node_text t ≫= fun k => priorities P !! k) with
      | Some x => Ret x
      | None =>
          match priorities P !! ("type:" +:+ node_type t) with
          | Some x => Ret x
          | None => Throw (SyntaxError ("Unknown operator: " +:+ str_of (node_text t)))
          end
      end
  end.

(** What [order] returns: the string ["done"] or a sign. *)
Inductive ordering : Type :=
| Done
| Sign (z : Z).

Definition order (P : Parser) (a b : slot) : outcome ordering :=
  match a, b with
  | Obj x, Obj y =>
      let* pa := getPrio P x in
      let* pb := getPrio P y in
      Ret (Sign (Z.sgn (right pb - left pa)))
  | Obj _, _ => Ret (Sign (-1))
  | _, Obj _ => Ret (Sign 1)
  | _, _ => Ret Done
  end.

(** [tokens.shift()]. *)
Definition next (tokens : list token) : slot * list token :=
  match tokens with
  | [] => (Undefined, [])
  | t :: rest => (Obj (Tok t), rest)
  end.

Definition last_of (current : list slot) : slot :=   (* current[current.length - 1] *)
  default Undefined (last current).

(** The [while (true)] loop of [Parser.prototype.process]; the head of
    [stack] is its top. *)
Fixpoint process_loop (fuel : nat) (P : Parser) (tokens : list token)
    (stack : list (list slot)) (middle left right : slot) (current : list slot)
  : outcome slot :=
  match fuel with
  | O => OutOfFuel
  | S fuel' =>
      let* o := order P left right in
      match o with
      | Done => Ret middle
      | Sign 1 =>
          let (right', tokens') := next tokens in
          process_loop fuel' P tokens' (current :: stack) Null right right' [middle; right]
      | Sign (-1) =>
          let* middle' := finalizer P (current ++ [middle]) in
          match stack with
          | current' :: stack' =>
              process_loop fuel' P tokens stack' middle' (last_of current') right current'
          | [] => Throw TypeError
          end
      | Sign 0 =>
          let (right', tokens') := next tokens in
          process_loop fuel' P tokens' stack Null right right' (current ++ [middle; right])
      | Sign _ => process_loop fuel' P tokens stack middle left right current
      end
  end.

(** Every turn of the loop shifts a token or pops a handle pushed by a shift,
    so twice the number of tokens, and one turn to answer, is enough. *)
Definition Parser_process (P : Parser) (tokens : list token) : outcome slot :=
  let (right, tokens') := next tokens in
  process_loop (2 * length tokens + 1) P tokens' [] Null Undefined right [Null; Undefined].

(** ** Standard finalizer *)

Fixpoint signature_parts (i : nat) (handle : list slot) : outcome (list string) :=
  match handle with
  | [] => Ret []
  | x :: rest =>
      let* part :=
        (if Nat.even i then Ret (match x with Null => "_" | _ => "E" end)
         else match x with
              | Obj n => Ret (default "" (node_text n))
              | _ => Throw TypeError
              end) in
      let* parts := signature_parts (S i) rest in
      Ret (part :: parts)
  end.

Fixpoint even_objects (i : nat) (handle : list slot) : list node :=   (* x && i % 2 == 0 *)
  match handle with
  | [] => []
  | Obj n :: rest => if Nat.even i then n :: even_objects (S i) rest else even_objects (S i) rest
  | _ :: rest => even_objects (S i) rest
  end.

Fixpoint odd_objects (i : nat) (handle : list slot) : list node :=    (* i % 2 == 1 *)
  match handle with
  | [] => []
  | Obj n :: rest => if Nat.odd i then n :: odd_objects (S i) rest else odd_objects (S i) rest
  | _ :: rest => odd_objects (S i) rest
  end.

(** [x ? x.f : y.f]. *)
Definition field_of_either (f : node -> nat) (x y : slot) : outcome nat :=
  match x, y with
  | Obj n, _ => Ret (f n)
  | _, Obj n => Ret (f n)
  | _, _ => Throw TypeError
  end.

Definition finalize (handle : list slot) : outcome slot :=
  let l := length handle in
  if (l =? 3)%nat && negb (truthy_slot (at_index handle 0)) && negb (truthy_slot (at_index handle 2))
  then Ret (at_index handle 1)
  else
    let* parts := signature_parts 0 handle in
    let* s := field_of_either node_start (at_index handle 0) (at_index handle 1) in
    let* e := match l with
              | S (S l2) => field_of_either node_end (at_index handle (S l2)) (at_index handle l2)
              | _ => Throw TypeError
              end in
    Ret (Obj (Ast (join " " parts) (even_objects 0 handle) (odd_objects 0 handle) s e)).

(** ** Teacup's priorities *)

Definition lassoc (n : Z) : prio := {| left := n; right := n - 1 |}.
Definition rassoc (n : Z) : prio := {| left := n; right := n + 1 |}.
Definition xassoc (n : Z) : prio := {| left := n; right := n |}.
Definition prefix (n : Z) : prio := {| left := n; right := 10004 |}.
Definition suffix (n : Z) : prio := {| left := 10005; right := n |}.

Definition Teacup_priorities : gmap string prio :=
  list_to_map
    [ ("type:open", prefix 5);
      ("type:middle", xassoc 5);
      ("type:close", suffix 5);
      (one newline, xassoc 15);
      (";", xassoc 15);
      (",", xassoc 25);
      ("=", rassoc 35);
      ("->", rassoc 35);
      ("not", prefix 105);
      ("or", lassoc 115);
      ("and", lassoc 125);
      (">", xassoc 205);
      ("<", xassoc 205);
      (">=", xassoc 205);
      ("<=", xassoc 205);
      ("==", xassoc 205);
      ("..", xassoc 305);
      ("+", lassoc 505);
      ("-", lassoc 505);
      ("prefix:-", prefix 605);
      ("*", lassoc 605);
      ("/", lassoc 605);
      ("%", lassoc 605);
      ("^", rassoc 705);
      ("type:infix", xassoc 905);
      ("type:prefix", prefix 905);
      (".", {| left := 15005; right := 1004 |});
      ("type:word", xassoc 20005);
      ("type:number", xassoc 20005);
      ("type:string", xassoc 20005) ]%Z.

Definition Teacup_parser : Parser :=
  {| priorities := Teacup_priorities; finalizer := finalize |}.

(** ** Values and environments *)

Definition loc := nat.

(** The functions of [Teacup.rootEnv]. *)
Inductive builtin : Type :=
| BAdd | BSub | BNeg | BMul | BDiv | BMod | BPow
| BLt | BGt | BLe | BGe | BEq
| BRange | BNot | BAnd | BOr | BLog.

(** JavaScript values.  An environment is referred to by the location of its
    frame; [None] stands for an [undefined] environment argument. *)
Inductive value : Type :=
| VUndefined
| VNull
| VBool (b : bool)
| VNum (x : float)
| VStr (s : string)
| VArray (l : list value)
| VBuiltin (f : builtin)
| VClosure (decls : list node) (body : option node) (env : option loc)   (* buildFunction *)
| VThunk (x : node) (env : option loc)        (* () => interpreter.eval(x, env) *)
| VBound (f : value) (this : value)           (* f.bind(this) *)
| VHost (name : string).                      (* a host object: Math *)

(** An object used as environment: its own properties and its prototype. *)
Record frame := Frame {
  proto : option loc;
  vars : gmap string value
}.

Abbreviation store := (list frame).

(** Computations on the store that may throw. *)
Definition M (A : Type) : Type := store -> outcome (A * store).

Definition mret {A} (a : A) : M A := fun st => Ret (a, st).
Definition mbind {A B} (c : M A) (k : A -> M B) : M B :=
  fun st => match c st with
            | Ret (a, st') => k a st'
            | Throw e => Throw e
            | OutOfFuel => OutOfFuel
            | Unmodelled => Unmodelled
            end.
Definition throw {A} (e : error) : M A := fun _ => Throw e.
Definition lift {A} (o : outcome A) : M A :=
  fun st => match o with
            | Ret a => Ret (a, st)
            | Throw e => Throw e
            | OutOfFuel => OutOfFuel
            | Unmodelled => Unmodelled
            end.

Notation "'let!' x ':=' c 'in' k" := (mbind c (fun x => k))
  (at level 10, x pattern, c at level 100, k at level 200).

Fixpoint mapM {A B} (f : A -> M B) (l : list A) : M (list B) :=
  match l with
  | [] => mret []
  | x :: rest => let! y := f x in let! ys := mapM f rest in mret (y :: ys)
  end.

(** [key in env] and [env[key]] along the prototype chain; a chain is no
    longer than the store. *)
Fixpoint lookup_chain (fuel : nat) (st : store) (l : loc) (key : string) : option value :=
  match fuel with
  | O => None
  | S fuel' =>
      match st !! l with
      | None => None
      | Some f =>
          match vars f !! key with
          | Some v => Some v
          | None =>
              match proto f with
              | Some p => lookup_chain fuel' st p key
              | None => None
              end
          end
      end
  end.

(** [Object.create(env)]. *)
Definition Object_create (env : option loc) : M loc :=
  fun st => match env with
            | None => Throw TypeError
            | Some p => Ret (length st, st ++ [Frame (Some p) ∅])
            end.

(** [env[key] = value]: always an own property of [env]. *)
Definition set_var (env : loc) (key : string) (v : value) : M unit :=
  fun st => Ret (tt, alter (fun f => Frame (proto f) (<[key := v]> (vars f))) env st).

(** ** Numbers *)

Definition round_Z (m e : Z) : float := SF2Prim (binary_normalize prec emax m e false).

Definition float_of_nat (n : nat) : float := round_Z (Z.of_nat n) 0.

(** The double nearest to [m * 10^e], ties to even.  For [e < 0] the quotient
    is taken with more than a thousand extra bits and a sticky last bit, which
    rounds as the exact quotient does. *)
Definition of_decimal (m e : Z) : float :=
  if (m =? 0)%Z then 0%float
  else if (400 <? e)%Z then infinity
  else if (e + Z.log2 m <? -400)%Z then 0%float
  else if (0 <=? e)%Z then round_Z (m * 10 ^ e) 0
  else
    let d := (10 ^ (- e))%Z in
    let k := (1200 + Z.log2 d)%Z in
    let q := (m * 2 ^ k / d)%Z in
    let sticky := if (m * 2 ^ k mod d =? 0)%Z then 0%Z else 1%Z in
    round_Z (2 * q + sticky) (- k - 1).

Definition digit_val (c : ascii) : Z := Z.of_nat (nat_of_ascii c - 48).

(** The longest prefix of digits, read as a number, its length, and the rest. *)
Fixpoint digits (acc : Z) (n : nat) (s : string) : Z * nat * string :=
  match s with
  | String c s' => if is_digit c then digits (10 * acc + digit_val c) (S n) s' else (acc, n, s)
  | EmptyString => (acc, n, s)
  end.

Fixpoint skip_space (s : string) : string :=
  match s with
  | String c s' =>
      if mem_char c (String " " (String "009" (String "010" (String "011"
           (String "012" (String "013" (String "160" EmptyString)))))))
      then skip_space s' else s
  | EmptyString => s
  end.

Definition read_sign (s : string) : bool * string :=
  match s with
  | String "-" s' => (true, s')
  | String "+" s' => (false, s')
  | _ => (false, s)
  end.

(** The exponent part [[eE][+-]?digits], 0 when there is none. *)
Definition read_exponent (s : string) : Z :=
  match s with
  | String c s' =>
      if mem_char c "eE" then
        let (neg, s'') := read_sign s' in
        let '(e, n, _) := digits 0 0 s'' in
        if (n =? 0)%nat then 0%Z else if neg then (- e)%Z else e
      else 0%Z
  | EmptyString => 0%Z
  end.

(** [parseFloat]: the longest prefix that is a decimal literal, [NaN] when
    there is none. *)
Definition parseFloat (s : string) : float :=
  let (neg, s1) := read_sign (skip_space s) in
  let sign x := if neg then (- x)%float else x in
  if String.prefix "Infinity" s1 then sign infinity
  else
    let '(ip, ni, s2) := digits 0 0 s1 in
    let '(m, nf, s3) :=
      match s2 with
      | String "." s2' =>
          let '(m, nf, s3) := digits ip 0 s2' in
          if (ni + nf =? 0)%nat then (m, nf, s2) else (m, nf, s3)
      | _ => (ip, 0%nat, s2)
      end in
    if (ni + nf =? 0)%nat then nan
    else sign (of_decimal m (read_exponent s3 - Z.of_nat nf)).

(** [Math.pow] for a natural exponent and a result that is a double exactly;
    the specification of the host leaves the rounding of the other cases to
    the implementation. *)
Definition int_of_float (y : float) : option Z :=   (* a natural number, as integer *)
  match Prim2SF y with
  | S754_zero _ => Some 0%Z
  | S754_finite false m e =>
      if (0 <=? e)%Z then Some (Z.pos m * 2 ^ e)%Z
      else if (Z.pos m mod 2 ^ (- e) =? 0)%Z then Some (Z.pos m / 2 ^ (- e))%Z
      else None
  | _ => None
  end.

Definition exact_value (x : float) (m e : Z) : bool :=
  match Prim2SF x with
  | S754_zero _ => (m =? 0)%Z
  | S754_finite s m' e' =>
      let v := if s then Z.neg m' else Z.pos m' in
      if (e <=? e')%Z then (v * 2 ^ (e' - e) =? m)%Z else (v =? m * 2 ^ (e - e'))%Z
  | _ => false
  end.

Definition Math_pow (x y : float) : outcome float :=
  match int_of_float y with
  | Some n =>
      if (n =? 0)%Z then Ret 1%float
      else if (4096 <=? n)%Z then Unmodelled
      else
        match Prim2SF x with
        | S754_finite s m e =>
            let v := if s then Z.neg m else Z.pos m in
            let r := round_Z (v ^ n) (e * n) in
            if exact_value r (v ^ n) (e * n) then Ret r else Unmodelled
        | S754_zero s => Ret (if s && Z.odd n then (-0)%float else 0%float)
        | _ => Unmodelled
        end
  | None => Unmodelled
  end.

(** [a % b]: the remainder of the truncated division, which is exact. *)
Definition js_rem (x y : float) : float :=
  match Prim2SF x, Prim2SF y with
  | S754_nan, _ | _, S754_nan | S754_infinity _, _ | _, S754_zero _ => nan
  | _, S754_infinity _ | S754_zero _, _ => x
  | S754_finite sx mx ex, S754_finite _ my ey =>
      let e := Z.min ex ey in
      let r := (Z.pos mx * 2 ^ (ex - e) mod (Z.pos my * 2 ^ (ey - e)))%Z in
      let a := if (r =? 0)%Z then 0%float else round_Z r e in
      if sx then (- a)%float else a
  end.

(** ** Host operations on values

    The operators of JavaScript are modelled on undefined, null, booleans,
    numbers and strings; where the host would convert an object to a
    primitive, a number to a string or a string to a number, the outcome is
    [Unmodelled]. *)

Definition truthy (v : value) : bool :=
  match v with
  | VUndefined | VNull => false
  | VBool b => b
  | VNum x => negb (is_zero x || is_nan x)
  | VStr s => negb (String.eqb s "")
  | _ => true
  end.

Definition is_function (v : value) : bool :=
  match v with
  | VBuiltin _ | VClosure _ _ _ | VThunk _ _ | VBound _ _ => true
  | _ => false
  end.

Definition ToNumber (v : value) : outcome float :=
  match v with
  | VUndefined => Ret nan
  | VNull => Ret 0%float
  | VBool b => Ret (if b then 1%float else 0%float)
  | VNum x => Ret x
  | _ => Unmodelled
  end.

Definition arith (f : float -> float -> float) (a b : value) : outcome value :=
  let* x := ToNumber a in
  let* y := ToNumber b in
  Ret (VNum (f x y)).

(** [String(v)] where it needs no number formatting. *)
Definition prim_string (v : value) : option string :=
  match v with
  | VUndefined => Some "undefined"
  | VNull => Some "null"
  | VBool b => Some (if b then "true" else "false")
  | VStr s => Some s
  | _ => None
  end.

Definition js_add (a b : value) : outcome value :=
  match a, b with
  | VStr s, _ =>
      match prim_string b with Some t => Ret (VStr (s +:+ t)) | None => Unmodelled end
  | _, VStr t =>
      match prim_string a with Some s => Ret (VStr (s +:+ t)) | None => Unmodelled end
  | _, _ => arith PrimFloat.add a b
  end.

Fixpoint str_ltb (s t : string) : bool :=
  match s, t with
  | _, EmptyString => false
  | EmptyString, String _ _ => true
  | String c s', String d t' =>
      (nat_of_ascii c <? nat_of_ascii d)%nat
      || ((nat_of_ascii c =? nat_of_ascii d)%nat && str_ltb s' t')
  end.

Definition js_lt (a b : value) : outcome value :=
  match a, b with
  | VStr s, VStr t => Ret (VBool (str_ltb s t))
  | _, _ =>
      let* x := ToNumber a in
      let* y := ToNumber b in
      Ret (VBool (x <? y)%float)
  end.

Definition js_le (a b : value) : outcome value :=
  match a, b with
  | VStr s, VStr t => Ret (VBool (negb (str_ltb t s)))
  | _, _ =>
      let* x := ToNumber a in
      let* y := ToNumber b in
      Ret (VBool (x <=? y)%float)
  end.

(** [a == b]. *)
Definition js_eq (a b : value) : outcome value :=
  match a, b with
  | (VUndefined | VNull), (VUndefined | VNull) => Ret (VBool true)
  | (VUndefined | VNull), _ | _, (VUndefined | VNull) => Ret (VBool false)
  | VStr s, VStr t => Ret (VBool (String.eqb s t))
  | (VBool _ | VNum _), (VBool _ | VNum _) =>
      let* x := ToNumber a in
      let* y := ToNumber b in
      Ret (VBool (x =? y)%float)
  | _, _ => Unmodelled
  end.

(** [Array.apply(null, Array(end - start)).map((_, i) => i + start)]. *)
Fixpoint range_items (start : value) (l : list nat) : outcome (list value) :=
  match l with
  | [] => Ret []
  | i :: rest =>
      let* x := js_add (VNum (float_of_nat i)) start in
      let* xs := range_items start rest in
      Ret (x :: xs)
  end.

Definition js_range (start end_ : value) : outcome value :=
  let* e := ToNumber end_ in
  let* s := ToNumber start in
  match int_of_float (e - s)%float with
  | Some n =>
      if (n <? 65536)%Z then
        let* items := range_items start (seq 0 (Z.to_nat n)) in Ret (VArray items)
      else if (n <? 4294967296)%Z then Unmodelled   (* more arguments than a call takes *)
      else Throw RangeError
  | None => Throw RangeError
  end.

(** [obj[field]]. *)
Definition get_property (obj field : value) : outcome value :=
  match obj with
  | VUndefined | VNull => Throw TypeError
  | VArray l =>
      match field with
      | VNum x =>
          Ret (match int_of_float x with
               | Some i => if (i <? Z.of_nat (length l))%Z
                           then default VUndefined (l !! Z.to_nat i) else VUndefined
               | None => VUndefined
               end)
      | VStr f => if String.eqb f "length" then Ret (VNum (float_of_nat (length l)))
                  else Unmodelled
      | _ => Unmodelled
      end
  | VStr s =>
      match field with
      | VNum x =>
          Ret (match int_of_float x with
               | Some i => if (i <? Z.of_nat (String.length s))%Z
                           then match String.get (Z.to_nat i) s with
                                | Some c => VStr (one c)
                                | None => VUndefined
                                end
                           else VUndefined
               | None => VUndefined
               end)
      | VStr f => if String.eqb f "length" then Ret (VNum (float_of_nat (String.length s)))
                  else Unmodelled
      | _ => Unmodelled
      end
  | _ => Unmodelled
  end.

Definition getField (obj field : value) : outcome value :=
  let* res := get_property obj field in
  if is_function res then Ret (VBound res obj)   (* res.bind(obj) *)
  else Ret res.

(** The values a [for ... of] loop walks through. *)
Definition iterate (v : value) : outcome (list value) :=
  match v with
  | VArray l => Ret l
  | VStr s => Ret (map (fun c => VStr (one c)) (list_ascii_of_string s))
  | VHost _ => Unmodelled
  | _ => Throw TypeError
  end.

(** ** Root environment *)

Definition Teacup_rootEnv : list (string * value) :=
  [ ("true", VBool true);
    ("false", VBool false);
    ("null", VNull);
    ("+", VBuiltin BAdd);
    ("-", VBuiltin BSub);
    ("prefix:-", VBuiltin BNeg);
    ("*", VBuiltin BMul);
    ("/", VBuiltin BDiv);
    ("%", VBuiltin BMod);
    ("^", VBuiltin BPow);
    ("<", VBuiltin BLt);
    (">", VBuiltin BGt);
    ("<=", VBuiltin BLe);
    (">=", VBuiltin BGe);
    ("==", VBuiltin BEq);
    ("..", VBuiltin BRange);
    ("prefix:not", VBuiltin BNot);
    ("and", VBuiltin BAnd);      (* lazy *)
    ("or", VBuiltin BOr);        (* lazy *)
    ("Math", VHost "Math");
    ("log", VBuiltin BLog) ].    (* added under DISPLAY STUFF *)

(** [makeEnvironment(...bindingGroups)]: an object without prototype holding
    the bindings of every group, the later ones winning. *)
Definition makeEnvironment (bindingGroups : list (list (string * value))) : frame :=
  Frame None (foldl (fun base bindings =>
                       foldl (fun b kv => <[fst kv := snd kv]> b) base bindings)
                    ∅ bindingGroups).

(** [fn.lazy], read on any value. *)
Definition lazy_flag (fn : value) : outcome bool :=
  match fn with
  | VUndefined | VNull => Throw TypeError
  | VBuiltin BAnd | VBuiltin BOr => Ret true
  | _ => Ret false
  end.

(** ** Utilities *)

(** The first argument of [extractArgs]: a string or a regular expression. *)
Inductive guard : Type :=
| Exact (s : string)
| Pattern (r : regex).

Definition guard_matches (g : guard) (ty : string) : bool :=
  match g with
  | Exact s => String.eqb s ty
  | Pattern r => test r ty
  end.

(** [extractArgs(guard, node)] without [strict]: [None] is [null]. *)
Definition extractArgs (g : guard) (n : node) : option (list node) :=
  if guard_matches g (node_type n) then Some (node_args n) else None.

Definition extractArgs_strict (g : string) (n : node) : outcome (list node) :=
  match extractArgs (Exact g) n with
  | Some args => Ret args
  | None => Throw (Error ("Expected '" +:+ g +:+ "', got '" +:+ node_type n +:+ "'"))
  end.

(** Reading a property of [x]: a [TypeError] when [x] is [undefined]. *)
Definition need {A} (x : option A) : outcome A :=
  match x with Some a => Ret a | None => Throw TypeError end.

Fixpoint Cats (rs : list regex) : regex :=
  match rs with
  | [] => Empty
  | [r] => r
  | r :: rest => Cat r (Cats rest)
  end.

Definition separators : string := String ";" (String "," (one newline)).

(** [/^[E_]( [;,\n] [E_])+$/] *)
Definition rx_list : regex :=
  Cats [Bol; OneOf "E_"; Plus (Cats [Chr " "; OneOf separators; Chr " "; OneOf "E_"]); Eol].
(** [/^[E_] [^ ]+ [E_]$/] *)
Definition rx_binary : regex :=
  Cats [Bol; OneOf "E_"; Chr " "; Plus (NoneOf " "); Chr " "; OneOf "E_"; Eol].
(** [/^E \( [E_] \) _$/] *)
Definition rx_apply : regex :=
  Cats [Bol; Lit "E ( "; OneOf "E_"; Lit " ) _"; Eol].

Definition unparenthesize (n : node) : option node :=
  match extractArgs (Exact "_ ( E ) _") n with
  | Some res => res !! 0
  | None => Some n
  end.

Definition getList (n : node) : list node :=
  match extractArgs (Pattern rx_list) n with
  | Some args => args
  | None => [n]
  end.

(** [normalizeCall(node)]: the callee (which is [undefined] when [ops] is
    empty) and the arguments, or [null]. *)
Definition normalizeCall (n : node) : outcome (option (option node * list node)) :=
  match extractArgs (Pattern rx_binary) n with
  | Some args =>
      match n with
      | Ast _ _ ops _ _ => Ret (Some (ops !! 0, args))
      | Tok _ => Throw TypeError
      end
  | None =>
      match extractArgs (Pattern rx_apply) n with
      | Some args =>
          let* a1 := need (args !! 1) in
          Ret (Some (args !! 0, getList a1))
      | None => Ret None
      end
  end.

(** [normalizeAssignment(node)]: the target, the parameters ([None] is
    [null]) and the expression. *)
Definition normalizeAssignment (n : node)
  : outcome (option node * option (list node) * option node) :=
  let* lr := extractArgs_strict "E = E" n in
  let* lhs := need (lr !! 0) in
  let* fargs := normalizeCall lhs in
  match fargs with
  | Some (f, params) => Ret (f, Some params, lr !! 1)
  | None => Ret (Some lhs, None, lr !! 1)
  end.

(** ** Interpreter *)

(** What a handler reaches through [this]: [eval], and the application of a
    function value ([fn.apply], [fn.call], [t()]). *)
Record interp := {
  this_eval : node -> option loc -> M value;
  this_call : value -> list value -> M value
}.

Record handler := {
  key : guard;
  func : interp -> node -> option loc -> list node -> M value
}.

Record Interpreter := {
  handlers : list handler;
  env : option loc
}.

(** The handlers are reversed so that the most recent come first. *)
Definition newInterpreter (hs : list handler) (env : option loc) : Interpreter :=
  {| handlers := rev hs; env := env |}.

Fixpoint dispatch (hs : list handler) (this : interp) (n : node) (env : option loc)
  : M value :=
  match hs with
  | [] => throw (SyntaxError ("Unknown node type: " +:+ node_type n))
  | h :: rest =>
      match extractArgs (key h) n with
      | Some args => func h this n env args
      | None => dispatch rest this n env
      end
  end.

Definition Interpreter_eval (I : Interpreter) (this : interp) (n : node) (env : option loc)
  : M value :=
  dispatch (handlers I) this n env.

(** [this.eval(x, env)] for an [x] that may be [undefined]. *)
Definition eval_opt (this : interp) (x : option node) (env : option loc) : M value :=
  match x with
  | Some n => this_eval this n env
  | None => throw TypeError
  end.

(** *** Helper functions of the handlers *)

Definition resolve (env : option loc) (text : string) : M value :=
  fun st =>
    match env with
    | None => Throw TypeError
    | Some l =>
        match lookup_chain (length st) st l text with
        | Some v => Ret (v, st)
        | None => Throw (ReferenceError ("Undefined variable: '" +:+ text +:+ "'."))
        end
    end.

Definition runCall (interpreter : interp) (n : node) (env : option loc) : M value :=
  let! res := lift (normalizeCall n) in
  let! res := lift (need res) in
  let! fn := eval_opt interpreter (fst res) env in
  let args := map (fun x => VThunk x env) (snd res) in
  let! lazy := lift (lazy_flag fn) in
  if lazy then this_call interpreter fn args
  else
    let! vals := mapM (fun t => this_call interpreter t []) args in
    this_call interpreter fn vals.

(** [variableBinder(expr, env)(value)]. *)
Definition variableBinder (expr : option node) (env : loc) (v : value) : M unit :=
  let! expr := lift (need expr) in
  let ty := node_type expr in
  if negb (String.eqb ty "word" || String.eqb ty "infix" || String.eqb ty "prefix")
  then throw (SyntaxError "Invalid variable declaration.")
  else
    let pfx := if String.eqb ty "prefix" then "prefix:" else "" in
    set_var env (pfx +:+ str_of (node_text expr)) v.

Definition buildFunction (decls : list node) (body : option node) (env : option loc) : value :=
  VClosure decls body env.

(** The body of the function returned by [buildFunction]. *)
Fixpoint bind_params (decls : list node) (arguments : list value) (newEnv : loc) : M unit :=
  match decls with
  | [] => mret tt
  | decl :: rest =>
      let! _ := variableBinder (Some decl) newEnv (hd VUndefined arguments) in
      bind_params rest (tl arguments) newEnv
  end.

Definition arg (args : list value) (i : nat) : value := default VUndefined (args !! i).

(** The functions of the root environment, applied. *)
Definition apply_builtin (this : interp) (f : builtin) (args : list value) : M value :=
  let a := arg args 0 in
  let b := arg args 1 in
  match f with
  | BAdd => lift (js_add a b)
  | BSub => lift (arith PrimFloat.sub a b)
  | BNeg => lift (let* x := ToNumber a in Ret (VNum (- x)%float))
  | BMul => lift (arith PrimFloat.mul a b)
  | BDiv => lift (arith PrimFloat.div a b)
  | BMod => lift (arith js_rem a b)
  | BPow => lift (let* x := ToNumber a in let* y := ToNumber b in
                  let* r := Math_pow x y in Ret (VNum r))
  | BLt => lift (js_lt a b)
  | BGt => lift (js_lt b a)
  | BLe => lift (js_le a b)
  | BGe => lift (js_le b a)
  | BEq => lift (js_eq a b)
  | BRange => lift (js_range a b)
  | BNot => mret (VBool (negb (truthy a)))
  | BAnd => let! x := this_call this a [] in
            if truthy x then this_call this b [] else mret x
  | BOr => let! x := this_call this a [] in
           if truthy x then mret x else this_call this b []
  | BLog => lift Unmodelled
  end.

(** [fn.apply(this, args)]. *)
Definition apply_function (this : interp) (fn : value) (args : list value) : M value :=
  match fn with
  | VBuiltin f => apply_builtin this f args
  | VClosure decls body env =>
      let! newEnv := Object_create env in
      let! _ := bind_params decls args newEnv in
      eval_opt this body (Some newEnv)
  | VThunk x env => this_eval this x env
  | VBound f _ => this_call this f args
  | _ => throw TypeError
  end.

(** *** Teacup's handlers *)

(** [/^(word|infix)$/] *)
Definition rx_variable : regex := Cats [Bol; Or (Lit "word") (Lit "infix"); Eol].
(** [/^[E_] ([!@#$%^&*+\/?<>=.-]+|and|or|not) E$/] *)
Definition rx_operator : regex :=
  Cats [Bol; OneOf "E_"; Chr " ";
        Alts [Plus (OneOf "!@#$%^&*+/?<>=.-"); Lit "and"; Lit "or"; Lit "not"];
        Lit " E"; Eol].
(** [/^_ if E then E( elif E then E)*( else E)? end _$/] *)
Definition rx_if : regex :=
  Cats [Bol; Lit "_ if E then E"; Star (Lit " elif E then E"); Opt (Lit " else E");
        Lit " end _"; Eol].
(** [/[,;\n]/] *)
Definition rx_sequence : regex := OneOf (String "," (String ";" (one newline))).

(** Variables *)
Definition h_variable : handler :=
  {| key := Pattern rx_variable;
     func := fun this node env _ => resolve env (str_of (node_text node)) |}.

(** Prefix operators *)
Definition h_prefix : handler :=
  {| key := Exact "prefix";
     func := fun this node env _ => resolve env ("prefix:" +:+ str_of (node_text node)) |}.

(** Numbers *)
Definition h_number : handler :=
  {| key := Exact "number";
     func := fun this node env _ => mret (VNum (parseFloat (str_of (node_text node)))) |}.

(** Strings: [node.text.slice(1, -1)] *)
Definition h_string : handler :=
  {| key := Exact "string";
     func := fun this node env _ =>
       let! s := lift (need (node_text node)) in
       mret (VStr (substring 1 (String.length s - 2) s)) |}.

(** Simple operators *)
Definition h_operator : handler :=
  {| key := Pattern rx_operator;
     func := fun this node env _ => runCall this node env |}.

(** Parentheses evaluate what's between them *)
Definition h_paren : handler :=
  {| key := Exact "_ ( E ) _";
     func := fun this node env args => eval_opt this (args !! 0) env |}.

(** Ditto for begin/end *)
Definition h_begin : handler :=
  {| key := Exact "_ begin E end _";
     func := fun this node env args => eval_opt this (args !! 0) env |}.

(** Function calls *)
Definition h_call : handler :=
  {| key := Exact "E ( E ) _";
     func := fun this node env _ => runCall this node env |}.

(** Function call (no arguments) *)
Definition h_call0 : handler :=
  {| key := Exact "E ( _ ) _";
     func := fun this node env args =>
       let! f := eval_opt this (args !! 0) env in
       this_call this f [] |}.

(** List notation [a, b, c, ...] *)
Definition h_list : handler :=
  {| key := Exact "_ [ E ] _";
     func := fun this node env args =>
       let! x := lift (need (args !! 0)) in
       let! items := mapM (fun a => this_eval this a env) (getList x) in
       mret (VArray items) |}.

(** Empty list *)
Definition h_empty_list : handler :=
  {| key := Exact "_ [ _ ] _";
     func := fun this node env _ => mret (VArray []) |}.

(** [getList(index).reduce((res, x) => getField(res, this.eval(x, env)), init)] *)
Fixpoint index_reduce (this : interp) (env : option loc) (res : value) (indices : list node)
  : M value :=
  match indices with
  | [] => mret res
  | x :: rest =>
      let! i := this_eval this x env in
      let! res' := lift (getField res i) in
      index_reduce this env res' rest
  end.

(** Indexing; the object is evaluated by [this.eval(obj)], without an
    environment. *)
Definition h_index : handler :=
  {| key := Exact "E [ E ] _";
     func := fun this node env args =>
       let! index := lift (need (args !! 1)) in
       let indices := getList index in
       let! init := eval_opt this (args !! 0) None in
       index_reduce this env init indices |}.

(** Dot notation *)
Definition h_dot : handler :=
  {| key := Exact "E . E";
     func := fun this node env args =>
       let! x := eval_opt this (args !! 0) env in
       let! field := lift (need (args !! 1)) in
       let! f := (if String.eqb (node_type field) "word"
                  then mret (match node_text field with
                             | Some t => VStr t
                             | None => VUndefined
                             end)
                  else this_eval this field env) in
       lift (getField x f) |}.

(** The [while] loop of the [if] handler; falling out of it returns
    [undefined]. *)
Fixpoint if_loop (this : interp) (env : option loc) (exprs : list node) : M value :=
  match exprs with
  | [] => mret VUndefined
  | [e] => this_eval this e env
  | c :: e :: rest =>
      let! v := this_eval this c env in
      if truthy v then this_eval this e env
      else if_loop this env rest
  end.

(** if x then y else z end *)
Definition h_if : handler :=
  {| key := Pattern rx_if;
     func := fun this node env args => if_loop this env args |}.

Fixpoint sequence_loop (this : interp) (env : option loc) (last : value) (stmts : list node)
  : M value :=
  match stmts with
  | [] => mret last
  | stmt :: rest =>
      let! v := this_eval this stmt env in
      sequence_loop this env v rest
  end.

(** sequences; of; statements *)
Definition h_sequence : handler :=
  {| key := Pattern rx_sequence;
     func := fun this node env args => sequence_loop this env VUndefined args |}.

(** Anonymous functions: args -> body *)
Definition h_lambda : handler :=
  {| key := Exact "E -> E";
     func := fun this node env args =>
       let! decl := lift (need (args !! 0)) in
       let! inner := lift (need (unparenthesize decl)) in
       mret (buildFunction (getList inner) (args !! 1) env) |}.

(** The [for] loop over the declarations of a [let]. *)
Fixpoint let_loop (this : interp) (env : option loc) (newEnv : loc)
    (decls : list (option node * option (list node) * option node)) : M unit :=
  match decls with
  | [] => mret tt
  | (target, params, expr) :: rest =>
      let! v := match params with
                | Some ps => mret (buildFunction ps expr (Some newEnv))
                | None => eval_opt this expr env
                end in
      let! _ := variableBinder target newEnv v in
      let_loop this env newEnv rest
  end.

Fixpoint map_outcome {A B} (f : A -> outcome B) (l : list A) : outcome (list B) :=
  match l with
  | [] => Ret []
  | x :: rest => let* y := f x in let* ys := map_outcome f rest in Ret (y :: ys)
  end.

(** let x = y in z end *)
Definition h_let : handler :=
  {| key := Exact "_ let E in E end _";
     func := fun this node env args =>
       let! rawDecls := lift (need (args !! 0)) in
       let! decls := lift (map_outcome normalizeAssignment (getList rawDecls)) in
       let! newEnv := Object_create env in
       let! _ := let_loop this env newEnv decls in
       eval_opt this (args !! 1) (Some newEnv) |}.

Fixpoint for_loop (this : interp) (v : option node) (cond : option node) (body : option node)
    (env : option loc) (items : list value) : M (list value) :=
  match items with
  | [] => mret []
  | x :: rest =>
      let! newEnv := Object_create env in
      let! _ := variableBinder v newEnv x in
      let! keep := match cond with
                   | None => mret true
                   | Some c => let! t := this_eval this c (Some newEnv) in mret (truthy t)
                   end in
      if keep then
        let! r := eval_opt this body (Some newEnv) in
        let! rs := for_loop this v cond body env rest in
        mret (r :: rs)
      else for_loop this v cond body env rest
  end.

Definition forHandler (this : interp) (v list cond body : option node) (env : option loc)
  : M value :=
  let! l := eval_opt this list env in
  let! items := lift (iterate l) in
  let! results := for_loop this v cond body env items in
  mret (VArray results).

(** for x in y do z end *)
Definition h_for : handler :=
  {| key := Exact "_ for E in E do E end _";
     func := fun this node env args =>
       forHandler this (args !! 0) (args !! 1) None (args !! 2) env |}.

(** for x in y when c do z end *)
Definition h_for_when : handler :=
  {| key := Exact "_ for E in E when E do E end _";
     func := fun this node env args =>
       forHandler this (args !! 0) (args !! 1) (args !! 2) (args !! 3) env |}.

(** [Teacup.handlers], in the order of the [push]es. *)
Definition Teacup_handlers : list handler :=
  [ h_variable; h_prefix; h_number; h_string; h_operator; h_paren; h_begin; h_call;
    h_call0; h_list; h_empty_list; h_index; h_dot; h_if; h_sequence; h_lambda; h_let;
    h_for; h_for_when ].

(** *** The evaluator, on fuel *)

Fixpoint eval (I : Interpreter) (fuel : nat) (n : node) (env : option loc) {struct fuel}
  : M value :=
  match fuel with
  | O => fun _ => OutOfFuel
  | S fuel' =>
      Interpreter_eval I {| this_eval := eval I fuel'; this_call := call I fuel' |} n env
  end
with call (I : Interpreter) (fuel : nat) (fn : value) (args : list value) {struct fuel}
  : M value :=
  match fuel with
  | O => fun _ => OutOfFuel
  | S fuel' =>
      apply_function {| this_eval := eval I fuel'; this_call := call I fuel' |} fn args
  end.

Definition self (I : Interpreter) (fuel : nat) : interp :=
  {| this_eval := eval I fuel; this_call := call I fuel |}.

(** [Interpreter.prototype.process]; the parser hands over [null] for an
    empty program. *)
Definition Interpreter_process (I : Interpreter) (fuel : nat) (root : slot) : M value :=
  match root with
  | Obj n => eval I fuel n (env I)
  | _ => throw TypeError
  end.

(** ** The pipeline *)

Definition initial_store : store := [makeEnvironment [Teacup_rootEnv]].

Definition Teacup_interpreter : Interpreter := newInterpreter Teacup_handlers (Some 0%nat).

Definition teacup (fuel : nat) (source : string) : outcome value :=
  let tokens := Lexer_process Teacup_lexer source in
  let tagged := tagPrefixOperators tokens in
  let* root := Parser_process Teacup_parser tagged in
  let* r := Interpreter_process Teacup_interpreter fuel root initial_store in
  Ret (fst r).

(** ** Vocabulary of the statements *)

(** [p] holds of every character of [s]. *)
Fixpoint all_chars (p : ascii -> bool) (s : string) : bool :=
  match s with
  | EmptyString => true
  | String c s' => p c && all_chars p s'
  end.

(** A character with which no token definition can start a match: not a
    digit, letter or underscore, bracket, separator, operator character,
    double quote or hash. *)
Definition starts_no_token (c : ascii) : bool :=
  negb (is_word c || mem_char c "([{)]}" || mem_char c (String "," (String ";" (one newline)))
        || mem_char c operator_chars || Ascii.eqb c dquote || Ascii.eqb c "#").

Definition prio_eqb (p q : prio) : bool :=
  (left p =? left q)%Z && (right p =? right q)%Z.

(** The keys of [Teacup.priorities] whose entry is [mk n] for its own [n]:
    the operators declared with [lassoc], or with [rassoc]. *)
Definition operators_built_by (mk : Z -> prio) : list string :=
  map fst (filter (fun kv => prio_eqb (snd kv) (mk (left (snd kv))))
                  (map_to_list Teacup_priorities)).

(** A word, number or string token that the parser ranks as an atom. *)
Definition is_atom (t : token) : bool :=
  (String.eqb (type t) "word" || String.eqb (type t) "number" || String.eqb (type t) "string")
  && match getPrio Teacup_parser (Tok t) with
     | Ret p => prio_eqb p (xassoc 20005)
     | _ => false
     end.

(** The node [finalize] builds for [x o y]. *)
Definition binary (o : token) (x y : node) : node :=
  Ast (join " " ["E"; text o; "E"]) [x; y] [Tok o] (node_start x) (node_end y).

(** The signature of an [if] with [k] [elif] clauses and no [else]. *)
Fixpoint elifs (k : nat) : string :=
  match k with
  | O => ""
  | S k' => " elif E then E" +:+ elifs k'
  end.

Definition if_signature (k : nat) : string := "_ if E then E" +:+ elifs k +:+ " end _".

(** The operands of an [if] without [else] are pairs of a condition and a
    branch; [all_false ev env args st st'] says that the conditions,
    evaluated one after the other from the store [st], all give a false
    value and leave the store [st']. *)
Inductive all_false (ev : node -> option loc -> M value) (env : option loc)
  : list node -> store -> store -> Prop :=
| all_false_nil st : all_false ev env [] st st
| all_false_cons c e rest v st st1 st2 :
    ev c env st = Ret (v, st1) ->
    truthy v = false ->
    all_false ev env rest st1 st2 ->
    all_false ev env (c :: e :: rest) st st2.

(** The character before the position reached after reading [l]. *)
Fixpoint last_char (prev : option ascii) (l : string) : option ascii :=
  match l with
  | EmptyString => prev
  | String c l' => last_char (Some c) l'
  end.

(** What follows the star in [rx_if], as a continuation. *)
Definition if_tail : option ascii -> string -> option string :=
  rmatch (Cats [Opt (Lit " else E"); Lit " end _"; Eol]) (fun _ s' => Some s').

(** The nodes of [x = e] and of [let decls in body end]. *)
Definition assign (x e : node) (ops : list node) (s t : nat) : node :=
  Ast "E = E" [x; e] ops s t.

Definition let_in (decls body : node) (ops : list node) (s t : nat) : node :=
  Ast "_ let E in E end _" [decls; body] ops s t.

(** The store after [env[key] = v]. *)
Definition bind_in (key : string) (v : value) (l : loc) (st : store) : store :=
  alter (fun f => Frame (proto f) (<[key := v]> (vars f))) l st.

(** The parser's measure: twice the tokens still to shift, plus the handles
    on the stack. *)
Definition pending (tokens : list token) (right : slot) (stack : list (list slot)) : nat :=
  2 * (length tokens + (if truthy_slot right then 1 else 0)) + length stack.

(** ** Vocabulary of the further properties *)

Definition retag (prev : string) (t : token) : token :=
  if String.eqb (type t) "infix" && (String.eqb prev "infix" || String.eqb prev "open")
  then set_type "prefix" t else t.

Fixpoint flatten (l : list (option string)) : string :=
  match l with
  | [] => ""
  | x :: rest => default "" x +:+ flatten rest
  end.

Fixpoint string_drop (n : nat) (s : string) : string :=
  match n, s with
  | O, _ => s
  | S n', String _ s' => string_drop n' s'
  | S _, EmptyString => EmptyString
  end.

Fixpoint in_order (pos : nat) (ts : list token) : Prop :=
  match ts with
  | [] => True
  | t :: rest => pos <= start t /\ start t < end_ t /\ in_order (end_ t) rest
  end.

Definition Teacup_kinds : list string :=
  ["number"; "open"; "middle"; "close"; "infix"; "word"; "string"].

Definition operand (x : slot) : Prop := x <> Undefined.

Definition has_prio (P : Parser) (x : slot) : Prop :=
  match x with
  | Obj n => exists p, getPrio P n = Ret p
  | _ => False
  end.

Fixpoint alternating (P : Parser) (h : list slot) : Prop :=
  match h with
  | [] => True
  | m :: op :: rest => operand m /\ has_prio P op /\ alternating P rest
  | _ => False
  end.

Definition open_handle (P : Parser) (h : list slot) : Prop := h <> [] /\ alternating P h.

Inductive handles (P : Parser) : list (list slot) -> list slot -> Prop :=
| handles_bottom : handles P [] [Null; Undefined]
| handles_open stack below current :
    handles P stack below -> open_handle P current -> handles P (below :: stack) current.

(** The node [finalize] builds for [x o1 y o2 z] when both operators merge
    into one handle. *)
Definition ternary (o1 o2 : token) (x y z : node) : node :=
  Ast (join " " ["E"; text o1; "E"; text o2; "E"]) [x; y; z] [Tok o1; Tok o2]
      (node_start x) (node_end z).

(** Every prototype is an object created earlier. *)
Definition wf_store (st : store) : Prop :=
  forall l f p, st !! l = Some f -> proto f = Some p -> p < l.

(** [env[key]] where [key in env], as [resolve] reads it. *)
Definition env_get (st : store) (env : loc) (key : string) : option value :=
  lookup_chain (length st) st env key.

(** What [variableBinder] accepts as the declaration of a variable, and the
    key it binds. *)
Definition bindable (d : node) : Prop :=
  node_type d = "word" \/ node_type d = "infix" \/ node_type d = "prefix".

Definition binder_key (d : node) : string :=
  (if String.eqb (node_type d) "prefix" then "prefix:" else "") +:+ str_of (node_text d).

(** The frame of a call: each parameter with the argument at its position. *)
Definition parameters (decls : list node) (args : list value) : gmap string value :=
  list_to_map (rev (zip (map binder_key decls) (map (arg args) (seq 0 (length decls))))).

(** The characters of [[!@#$%^&*+\/?<>=.-]], the class of the handler of
    simple operators. *)
Definition applicable_chars : string := "!@#$%^&*+/?<>=.-".

(** The signature of an operator with a right operand: [E op E] or [_ op E]. *)
Definition operator_signature (lhs op : string) : string := lhs +:+ " " +:+ op +:+ " E".

Definition applicable (c : ascii) : bool := mem_char c applicable_chars.

(** What the operator pattern has to match after the operator: [ E$]. *)
Definition operand_tail : option ascii -> string -> option string :=
  rmatch (Cat (Lit " E") Eol) (fun _ s' => Some s').

(** A computation keeps the objects below [l]: when it returns, the first
    [l] objects of the store are as before and no object has gone. *)
Definition keeps {A} (l : nat) (c : M A) : Prop :=
  forall st a st', l <= length st -> c st = Ret (a, st') ->
    take l st' = take l st /\ length st <= length st'.

Definition interp_keeps (l : nat) (this : interp) : Prop :=
  (forall n env, keeps l (this_eval this n env))
  /\ (forall f args, keeps l (this_call this f args)).

(** A string literal: [s] between double quotes. *)
Definition quoted (s : string) : string := String dquote (s +:+ one dquote).

Definition no_quote (c : ascii) : bool := negb (mem_char c (one dquote)).

(** The tokens a tree is made of: its operators and those of its operands. *)
Fixpoint tokens_of (n : node) : list token :=
  match n with
  | Tok t => [t]
  | Ast _ args ops _ _ => flat_map tokens_of ops ++ flat_map tokens_of args
  end.

Definition slot_tokens (x : slot) : list token :=
  match x with Obj n => tokens_of n | _ => [] end.

Definition handle_tokens (h : list slot) : list token := flat_map slot_tokens h.

(** The words of the token definitions [open], [middle], [close] and
    [infix]. *)
Definition reserved : list string :=
  ["let"; "for"; "if"; "begin"; "then"; "elif"; "else"; "in"; "do"; "when"; "end";
   "and"; "or"; "not"].

(** An identifier: characters of [\w], the first not a digit, not a reserved
    word. *)
Definition identifier (w : string) : Prop :=
  all_chars is_word w = true
  /\ (match w with String c _ => is_digit c = false | EmptyString => False end)
  /\ ~ In w reserved.

(** ** Proofs *)

#[local] Arguments String.append !_ _ / : simpl nomatch.

(** *** The monad of the evaluator *)

Lemma mbind_Ret {A B} (c : M A) (k : A -> M B) st a st' :
  c st = Ret (a, st') -> mbind c k st = k a st'.
Proof. intros H. unfold mbind. now rewrite H. Qed.

Lemma mbind_assoc {A B C} (c : M A) (k1 : A -> M B) (k2 : B -> M C) st :
  mbind (mbind c k1) k2 st = mbind c (fun a => mbind (k1 a) k2) st.
Proof. unfold mbind. destruct (c st) as [[a st']| | |]; reflexivity. Qed.

Lemma lift_Ret {A B} (a : A) (k : A -> M B) st :
  mbind (lift (Ret a)) k st = k a st.
Proof. reflexivity. Qed.

(** *** Regular expressions on strings with a known shape *)

Lemma rmatch_Lit_app l : forall k prev s,
  rmatch (Lit l) k prev (l +:+ s) = k (last_char prev l) s.
Proof.
  induction l as [|c l IH]; intros k prev s; [reflexivity|].
  cbn [Lit Chr rmatch String.append]. rewrite Ascii.eqb_refl. apply IH.
Qed.

Lemma search_from_here r prev s e :
  match_here r prev s = Some e -> search_from r prev s = true.
Proof. intros H. destruct s; cbn [search_from]; now rewrite H. Qed.

Lemma all_chars_app p a b : all_chars p (a +:+ b) = all_chars p a && all_chars p b.
Proof. induction a as [|c a IH]; cbn; [reflexivity|]. now rewrite IH, andb_assoc. Qed.

Lemma search_Class_none p s : forall prev,
  all_chars (fun c => negb (p c)) s = true -> search_from (Class p) prev s = false.
Proof.
  induction s as [|c s IH]; intros prev H; [reflexivity|].
  cbn in H. apply andb_true_iff in H as [Hc Hs].
  cbn [search_from match_here rmatch]. apply negb_true_iff in Hc. rewrite Hc. now apply IH.
Qed.

(** *** Lexer *)

Lemma no_rule_starts c prev s :
  starts_no_token c = true -> first_group (re Teacup_lexer) 0 prev (String c s) = None.
Proof.
  intros H.
  destruct c as [[] [] [] [] [] [] [] []]; try discriminate H; clear H;
    destruct prev as [p|]; try destruct (is_word p) eqn:Hp;
    cbn; rewrite ?Hp; reflexivity.
Qed.

Lemma append_one_cons g c s : (g +:+ one c) +:+ s = g +:+ String c s.
Proof. induction g as [|d g IH]; cbn; [reflexivity|]. now rewrite IH. Qed.

Lemma append_empty g : g +:+ "" = g.
Proof. induction g; cbn; congruence. Qed.

(** A text without any character that starts a token is one single gap. *)
Lemma split_from_gap s : forall prev gap,
  all_chars starts_no_token s = true ->
  split_from (re Teacup_lexer) prev 0 gap s = [Some (gap +:+ s)].
Proof.
  induction s as [|c s IH]; intros prev gap H.
  - cbn. now rewrite append_empty.
  - cbn in H. apply andb_true_iff in H as [Hc Hs].
    cbn [split_from]. rewrite (no_rule_starts c prev s Hc).
    rewrite IH by assumption. now rewrite append_one_cons.
Qed.

(** C5, as stated, fails: the text [1 + 2] holds two spaces, a character no
    token definition consumes (no rule starts at it, and the split leaves it
    in a gap); the lexer raises nothing and returns the three tokens, and
    the program evaluates to 3. *)
Lemma lexer_drops_spaces :
  starts_no_token " " = true
  /\ first_group (re Teacup_lexer) 0 (Some "1"%char) " + 2" = None
  /\ split (re Teacup_lexer) "1 + 2"
     = [Some ""; Some "1"; None; None; None; None; None; None; None;
        Some " "; None; None; None; None; Some "+"; None; None; None;
        Some " "; Some "2"; None; None; None; None; None; None; None;
        Some ""]
  /\ Lexer_process Teacup_lexer "1 + 2"
     = [Token "number" "1" 0 1; Token "infix" "+" 2 3; Token "number" "2" 4 5]
  /\ teacup 4 "1 + 2" = Ret (VNum 3).
Proof. repeat split; vm_compute; reflexivity. Qed.

(** C5, amended: [Lexer.prototype.process] has no failure path, it is a total
    function to token lists.  A character with which no token definition can
    start is matched by no rule, whatever stands around it; a text made of
    such characters only is dropped whole (the token list is empty), and
    inside a program such characters vanish between the tokens. *)
Theorem unconsumed_characters_are_dropped :
  (forall c prev s, starts_no_token c = true ->
     first_group (re Teacup_lexer) 0 prev (String c s) = None)
  /\ (forall text, all_chars starts_no_token text = true ->
        Lexer_process Teacup_lexer text = [])
  /\ Lexer_process Teacup_lexer "1 + ` 2"
     = [Token "number" "1" 0 1; Token "infix" "+" 2 3; Token "number" "2" 6 7].
Proof.
  split; [exact no_rule_starts|split].
  - intros text H. unfold Lexer_process, split. rewrite split_from_gap by assumption.
    reflexivity.
  - vm_compute. reflexivity.
Qed.

Lemma unconsumed_characters_are_dropped_witness :
  first_group (re Teacup_lexer) 0 None " ~" = None
  /\ Lexer_process Teacup_lexer "   " = [].
Proof.
  split.
  - apply (proj1 unconsumed_characters_are_dropped). reflexivity.
  - apply (proj1 (proj2 unconsumed_characters_are_dropped)). reflexivity.
Defined.

(** *** Prefix tagger *)

Ltac case_eqb :=
  match goal with
  | |- context [String.eqb ?a ?b] => destruct (String.eqb_spec a b)
  end.

(** The second pass sees, before each token, either the type the first pass
    saw or ["prefix"] where the first pass saw the ["infix"] it retagged. *)
Lemma tag_loop_again (ts : list token) : forall p q : string,
  q = p \/ (p = "infix" /\ q = "prefix") ->
  tag_loop q (tag_loop p ts) = tag_loop p ts.
Proof.
  induction ts as [|t ts IH]; intros p q R; [reflexivity|].
  cbn [tag_loop].
  destruct (String.eqb_spec p "start") as [Hp|Hp];
  destruct (String.eqb_spec (type t) "open") as [Ho|Ho];
  destruct (String.eqb_spec (type t) "infix") as [Hi|Hi];
  destruct (String.eqb_spec p "infix") as [Hpi|Hpi];
  destruct (String.eqb_spec p "open") as [Hpo|Hpo];
  cbn [andb orb tag_loop set_type type];
  try congruence.
  all: repeat case_eqb; cbn [andb orb]; try congruence.
  all: try (f_equal; apply IH; auto; fail).
  all: try (destruct R as [->|[? ->]]; congruence).
  all: try (f_equal; apply IH; subst; auto).
Qed.

(** C9: the prefix tagger is idempotent: tagging the tagged tokens again gives
    the same tokens, hence the same kinds. *)
Theorem tagPrefixOperators_idempotent (ts : list token) :
  tagPrefixOperators (tagPrefixOperators ts) = tagPrefixOperators ts
  /\ map type (tagPrefixOperators (tagPrefixOperators ts)) = map type (tagPrefixOperators ts).
Proof.
  assert (H : tagPrefixOperators (tagPrefixOperators ts) = tagPrefixOperators ts)
    by (apply tag_loop_again; now left).
  split; [exact H | now rewrite H].
Qed.

(** A token that is neither [infix] nor [open] passes unchanged. *)
Lemma tag_loop_other p t ts :
  type t <> "infix" -> type t <> "open" ->
  tag_loop p (t :: ts) = t :: tag_loop (type t) ts.
Proof.
  intros Hi Ho. cbn [tag_loop].
  apply String.eqb_neq in Hi, Ho. rewrite Hi, Ho, andb_false_r. reflexivity.
Qed.

(** An [infix] token after something else than [infix] or [open] stays. *)
Lemma tag_loop_infix_stays p t ts :
  type t = "infix" -> p <> "infix" -> p <> "open" ->
  tag_loop p (t :: ts) = t :: tag_loop "infix" ts.
Proof.
  intros Ht Hi Ho. cbn [tag_loop]. rewrite Ht.
  apply String.eqb_neq in Hi, Ho. rewrite Hi, Ho. cbn. now rewrite andb_false_r.
Qed.

(** *** Parser *)

Lemma process_loop_S fuel P tokens stack middle left right current :
  process_loop (S fuel) P tokens stack middle left right current =
  let* o := order P left right in
  match o with
  | Done => Ret middle
  | Sign 1 =>
      let (right', tokens') := next tokens in
      process_loop fuel P tokens' (current :: stack) Null right right' [middle; right]
  | Sign (-1) =>
      let* middle' := finalizer P (current ++ [middle]) in
      match stack with
      | current' :: stack' =>
          process_loop fuel P tokens stack' middle' (last_of current') right current'
      | [] => Throw TypeError
      end
  | Sign 0 =>
      let (right', tokens') := next tokens in
      process_loop fuel P tokens' stack Null right right' (current ++ [middle; right])
  | Sign _ => process_loop fuel P tokens stack middle left right current
  end.
Proof. reflexivity. Qed.

Lemma order_lt P a b pa pb :
  getPrio P a = Ret pa -> getPrio P b = Ret pb -> (left pa < right pb)%Z ->
  order P (Obj a) (Obj b) = Ret (Sign 1).
Proof. intros Ha Hb H. unfold order. rewrite Ha, Hb. cbn [obind]. do 2 f_equal. lia. Qed.

Lemma order_gt P a b pa pb :
  getPrio P a = Ret pa -> getPrio P b = Ret pb -> (right pb < left pa)%Z ->
  order P (Obj a) (Obj b) = Ret (Sign (-1)).
Proof. intros Ha Hb H. unfold order. rewrite Ha, Hb. cbn [obind]. do 2 f_equal. lia. Qed.

(** C2, as stated, fails: between two [+] tokens the left one's [right]
    priority (504) is below the right one's [left] priority (505), and
    [order] answers -1, not +1. *)
Lemma order_plus_plus_closes :
  getPrio Teacup_parser (Tok (Token "infix" "+" 2 3)) = Ret (lassoc 505)
  /\ (right (lassoc 505) < left (lassoc 505))%Z
  /\ order Teacup_parser (Obj (Tok (Token "infix" "+" 2 3))) (Obj (Tok (Token "infix" "+" 6 7)))
     = Ret (Sign (-1)).
Proof. repeat split. Qed.

(** C2, amended: for two tokens with priority entries, [order(left, right)]
    is +1 exactly when the [left] field of the left token's entry is below the
    [right] field of the right token's entry, -1 exactly when it is above, 0
    exactly when they are equal: it is the sign of their difference.  With
    both tokens absent it is ["done"]. *)
Theorem order_compares_left_field_with_right_field (P : Parser) (a b : node) (pa pb : prio) :
  getPrio P a = Ret pa -> getPrio P b = Ret pb ->
  order P (Obj a) (Obj b) = Ret (Sign (Z.sgn (right pb - left pa)))
  /\ (order P (Obj a) (Obj b) = Ret (Sign 1) <-> (left pa < right pb)%Z)
  /\ (order P (Obj a) (Obj b) = Ret (Sign (-1)) <-> (left pa > right pb)%Z)
  /\ (order P (Obj a) (Obj b) = Ret (Sign 0) <-> left pa = right pb)
  /\ order P Undefined Undefined = Ret Done.
Proof.
  intros Ha Hb. unfold order. rewrite Ha, Hb. cbn [obind].
  split; [reflexivity|].
  repeat split; intros H.
  - injection H as H. lia.
  - do 2 f_equal. lia.
  - injection H as H. lia.
  - do 2 f_equal. lia.
  - injection H as H. lia.
  - do 2 f_equal. lia.
Qed.

Lemma order_compares_witness :
  order Teacup_parser (Obj (Tok (Token "infix" "+" 2 3))) (Obj (Tok (Token "infix" "*" 6 7)))
  = Ret (Sign 1).
Proof.
  rewrite (proj1 (order_compares_left_field_with_right_field Teacup_parser
                    (Tok (Token "infix" "+" 2 3)) (Tok (Token "infix" "*" 6 7))
                    (lassoc 505) (lassoc 605) eq_refl eq_refl)).
  reflexivity.
Defined.

(** One turn of the parser's loop, the answer of [order] being known. *)
Ltac parser_step H :=
  rewrite process_loop_S; rewrite H;
  try match goal with Hf : finalizer _ = finalize |- _ => rewrite ?Hf end;
  cbn [obind next app last_of last default finalize length Nat.eqb andb negb truthy_slot
       at_index lookup list_lookup signature_parts Nat.even Nat.odd node_text text option_map
       from_option id field_of_either even_objects odd_objects node_start node_end join].

Section Associativity.
Variable P : Parser.
Hypothesis Hfin : finalizer P = finalize.
Variables a o1 b o2 c : token.
Variables pa po1 pb po2 pc : prio.
Hypothesis Ha : getPrio P (Tok a) = Ret pa.
Hypothesis Hb : getPrio P (Tok b) = Ret pb.
Hypothesis Hc : getPrio P (Tok c) = Ret pc.
Hypothesis Ho1 : getPrio P (Tok o1) = Ret po1.
Hypothesis Ho2 : getPrio P (Tok o2) = Ret po2.
(** The operands are tighter than the operators around them. *)
Hypothesis Hao : (right po1 < left pa)%Z.
Hypothesis Hob : (left po1 < right pb)%Z.
Hypothesis Hbo : (right po2 < left pb)%Z.
Hypothesis Hoc : (left po2 < right pc)%Z.

(** The second operator, seen from the right, is below the first: the
    handle of the first is closed before the second opens its own. *)
Lemma parse_left_nested :
  (right po2 < left po1)%Z ->
  Parser_process P [a; o1; b; o2; c]
  = Ret (Obj (binary o2 (binary o1 (Tok a) (Tok b)) (Tok c))).
Proof using All.
  intros Hoo. unfold Parser_process. cbn [next length Nat.mul Nat.add].
  parser_step (eq_refl : order P Undefined (Obj (Tok a)) = Ret (Sign 1)).
  parser_step (order_gt _ _ _ _ _ Ha Ho1 Hao).
  parser_step (eq_refl : order P Undefined (Obj (Tok o1)) = Ret (Sign 1)).
  parser_step (order_lt _ _ _ _ _ Ho1 Hb Hob).
  parser_step (order_gt _ _ _ _ _ Hb Ho2 Hbo).
  parser_step (order_gt _ _ _ _ _ Ho1 Ho2 Hoo).
  parser_step (eq_refl : order P Undefined (Obj (Tok o2)) = Ret (Sign 1)).
  parser_step (order_lt _ _ _ _ _ Ho2 Hc Hoc).
  parser_step (eq_refl : order P (Obj (Tok c)) Undefined = Ret (Sign (-1))).
  parser_step (eq_refl : order P (Obj (Tok o2)) Undefined = Ret (Sign (-1))).
  parser_step (eq_refl : order P Undefined Undefined = Ret Done).
  reflexivity.
Qed.

(** The second operator is above the first: it opens a handle inside. *)
Lemma parse_right_nested :
  (left po1 < right po2)%Z ->
  Parser_process P [a; o1; b; o2; c]
  = Ret (Obj (binary o1 (Tok a) (binary o2 (Tok b) (Tok c)))).
Proof using All.
  intros Hoo. unfold Parser_process. cbn [next length Nat.mul Nat.add].
  parser_step (eq_refl : order P Undefined (Obj (Tok a)) = Ret (Sign 1)).
  parser_step (order_gt _ _ _ _ _ Ha Ho1 Hao).
  parser_step (eq_refl : order P Undefined (Obj (Tok o1)) = Ret (Sign 1)).
  parser_step (order_lt _ _ _ _ _ Ho1 Hb Hob).
  parser_step (order_gt _ _ _ _ _ Hb Ho2 Hbo).
  parser_step (order_lt _ _ _ _ _ Ho1 Ho2 Hoo).
  parser_step (order_lt _ _ _ _ _ Ho2 Hc Hoc).
  parser_step (eq_refl : order P (Obj (Tok c)) Undefined = Ret (Sign (-1))).
  parser_step (eq_refl : order P (Obj (Tok o2)) Undefined = Ret (Sign (-1))).
  parser_step (eq_refl : order P (Obj (Tok o1)) Undefined = Ret (Sign (-1))).
  parser_step (eq_refl : order P Undefined Undefined = Ret Done).
  reflexivity.
Qed.
End Associativity.

Lemma prio_eqb_eq p q : prio_eqb p q = true -> p = q.
Proof.
  destruct p, q. unfold prio_eqb. cbn. intros H.
  apply andb_true_iff in H as [H1 H2]. apply Z.eqb_eq in H1, H2. congruence.
Qed.

Lemma is_atom_prio t :
  is_atom t = true -> getPrio Teacup_parser (Tok t) = Ret (xassoc 20005).
Proof.
  unfold is_atom. intros H. apply andb_true_iff in H as [_ H].
  destruct (getPrio Teacup_parser (Tok t)) as [p| | |]; try discriminate.
  now rewrite (prio_eqb_eq _ _ H).
Qed.

Lemma is_atom_type t :
  is_atom t = true -> type t <> "infix" /\ type t <> "open".
Proof.
  unfold is_atom. intros H. apply andb_true_iff in H as [H _].
  apply orb_true_iff in H as [H|H]; [apply orb_true_iff in H as [H|H]|];
    apply String.eqb_eq in H; rewrite H; split; discriminate.
Qed.

(** The tagger leaves [a o b o c] as it is. *)
Lemma tag_infix_chain a o1 b o2 c :
  is_atom a = true -> is_atom b = true -> is_atom c = true ->
  type o1 = "infix" -> type o2 = "infix" ->
  tagPrefixOperators [a; o1; b; o2; c] = [a; o1; b; o2; c].
Proof.
  intros Ha Hb Hc H1 H2. unfold tagPrefixOperators.
  destruct (is_atom_type a Ha), (is_atom_type b Hb), (is_atom_type c Hc).
  rewrite tag_loop_other by assumption.
  rewrite tag_loop_infix_stays by assumption.
  rewrite tag_loop_other by assumption.
  rewrite tag_loop_infix_stays by assumption.
  rewrite tag_loop_other by assumption.
  reflexivity.
Qed.

(** C3: every operator that [Teacup.priorities] declares with [lassoc]
    parses [a o b o c] as [(a o b) o c], and every operator declared with
    [rassoc] as [a o (b o c)], for atoms [a], [b] and [c]; the program
    [2 ^ 3 ^ 2] evaluates to 512. *)
Theorem associativity_of_table_operators (a o1 b o2 c : token) :
  is_atom a = true -> is_atom b = true -> is_atom c = true ->
  type o1 = "infix" -> type o2 = "infix" -> text o2 = text o1 ->
  (In (text o1) (operators_built_by lassoc) ->
     Parser_process Teacup_parser (tagPrefixOperators [a; o1; b; o2; c])
     = Ret (Obj (binary o2 (binary o1 (Tok a) (Tok b)) (Tok c))))
  /\ (In (text o1) (operators_built_by rassoc) ->
        Parser_process Teacup_parser (tagPrefixOperators [a; o1; b; o2; c])
        = Ret (Obj (binary o1 (Tok a) (binary o2 (Tok b) (Tok c)))))
  /\ teacup 6 "2 ^ 3 ^ 2" = Ret (VNum 512).
Proof.
  intros Ha Hb Hc H1 H2 Ht.
  rewrite (tag_infix_chain a o1 b o2 c Ha Hb Hc H1 H2).
  apply is_atom_prio in Ha, Hb, Hc.
  destruct o1 as [ty1 tx1 s1 e1], o2 as [ty2 tx2 s2 e2].
  cbn [type text] in H1, H2, Ht |- *. subst ty1 ty2 tx2.
  split; [|split].
  - intros Hin. vm_compute in Hin.
    repeat destruct Hin as [Hin|Hin]; try contradiction; subst tx1;
      (eapply parse_left_nested;
       [ reflexivity | exact Ha | exact Hb | exact Hc
       | vm_compute; reflexivity | vm_compute; reflexivity | cbn; lia .. ]).
  - intros Hin. vm_compute in Hin.
    repeat destruct Hin as [Hin|Hin]; try contradiction; subst tx1;
      (eapply parse_right_nested;
       [ reflexivity | exact Ha | exact Hb | exact Hc
       | vm_compute; reflexivity | vm_compute; reflexivity | cbn; lia .. ]).
  - vm_compute. reflexivity.
Qed.

Lemma associativity_witness :
  Parser_process Teacup_parser
    (tagPrefixOperators
       [Token "word" "a" 0 1; Token "infix" "-" 2 3; Token "word" "b" 4 5;
        Token "infix" "-" 6 7; Token "word" "c" 8 9])
  = Ret (Obj (binary (Token "infix" "-" 6 7)
                (binary (Token "infix" "-" 2 3)
                   (Tok (Token "word" "a" 0 1)) (Tok (Token "word" "b" 4 5)))
                (Tok (Token "word" "c" 8 9))))
  /\ Parser_process Teacup_parser
       (tagPrefixOperators
          [Token "word" "a" 0 1; Token "infix" "=" 2 3; Token "word" "b" 4 5;
           Token "infix" "=" 6 7; Token "number" "1" 8 9])
     = Ret (Obj (binary (Token "infix" "=" 2 3) (Tok (Token "word" "a" 0 1))
                   (binary (Token "infix" "=" 6 7)
                      (Tok (Token "word" "b" 4 5)) (Tok (Token "number" "1" 8 9))))).
Proof.
  split.
  - refine (proj1 (associativity_of_table_operators
                     (Token "word" "a" 0 1) (Token "infix" "-" 2 3) (Token "word" "b" 4 5)
                     (Token "infix" "-" 6 7) (Token "word" "c" 8 9) _ _ _ _ _ _) _);
      [vm_compute; reflexivity .. | vm_compute; tauto].
  - refine (proj1 (proj2 (associativity_of_table_operators
                     (Token "word" "a" 0 1) (Token "infix" "=" 2 3) (Token "word" "b" 4 5)
                     (Token "infix" "=" 6 7) (Token "number" "1" 8 9) _ _ _ _ _ _)) _);
      [vm_compute; reflexivity .. | vm_compute; tauto].
Defined.

(** C8: the finalizer hands back the token of the handle [[null, t, null]]
    as it is; so the one-token program parses to the bare token (the tagger
    leaves a lone token alone), and evaluating a bare token is its leaf
    semantics: a word or infix token resolves its text, a prefix token
    resolves ["prefix:"] followed by its text, a number token is parsed by
    [parseFloat], a string token loses its first and last character. *)
Theorem finalizer_collapse (ty tx : string) (s e n : nat) (env : option loc) (st : store) :
  finalize [Null; Obj (Tok (Token ty tx s e)); Null] = Ret (Obj (Tok (Token ty tx s e)))
  /\ tagPrefixOperators [Token ty tx s e] = [Token ty tx s e]
  /\ Parser_process Teacup_parser [Token ty tx s e] = Ret (Obj (Tok (Token ty tx s e)))
  /\ eval Teacup_interpreter (S n) (Tok (Token "word" tx s e)) env st = resolve env tx st
  /\ eval Teacup_interpreter (S n) (Tok (Token "infix" tx s e)) env st = resolve env tx st
  /\ eval Teacup_interpreter (S n) (Tok (Token "prefix" tx s e)) env st
     = resolve env ("prefix:" +:+ tx) st
  /\ eval Teacup_interpreter (S n) (Tok (Token "number" tx s e)) env st
     = Ret (VNum (parseFloat tx), st)
  /\ eval Teacup_interpreter (S n) (Tok (Token "string" tx s e)) env st
     = Ret (VStr (substring 1 (String.length tx - 2) tx), st).
Proof.
  repeat split.
  unfold tagPrefixOperators. cbn.
  destruct (String.eqb ty "open"), (String.eqb ty "infix"); reflexivity.
Qed.

(** The parser never runs out of the fuel it gives itself. *)

Lemma order_answers P a b o :
  order P a b = Ret o ->
  o = Done
  \/ (o = Sign 1 /\ truthy_slot b = true)
  \/ (o = Sign 0 /\ truthy_slot b = true)
  \/ o = Sign (-1).
Proof.
  unfold order. destruct a as [| |x], b as [| |y]; cbn; intros H;
    try (injection H as <-; auto; fail).
  destruct (getPrio P x) as [pa| | |]; try discriminate.
  destruct (getPrio P y) as [pb| | |]; try discriminate.
  cbn in H. injection H as <-.
  destruct (right pb - left pa)%Z; cbn; auto.
Qed.

Lemma getPrio_fuel P t : getPrio P t <> OutOfFuel.
Proof. unfold getPrio. repeat case_match; discriminate. Qed.

Lemma order_fuel P a b : order P a b <> OutOfFuel.
Proof.
  unfold order. destruct a as [| |x], b as [| |y]; try discriminate.
  pose proof (getPrio_fuel P x). pose proof (getPrio_fuel P y).
  destruct (getPrio P x), (getPrio P y); cbn [obind]; congruence.
Qed.

Lemma pending_next tokens right stack :
  truthy_slot right = true ->
  pending (snd (next tokens)) (fst (next tokens)) stack + 2 <= pending tokens right stack.
Proof.
  intros H. unfold pending. rewrite H. destruct tokens as [|t rest]; cbn; lia.
Qed.

Lemma process_loop_fuel P :
  (forall h, finalizer P h <> OutOfFuel) ->
  forall fuel tokens stack middle left right current,
    pending tokens right stack < fuel ->
    process_loop fuel P tokens stack middle left right current <> OutOfFuel.
Proof.
  intros Hfin. induction fuel as [|fuel IH]; intros tokens stack middle left right current Hm;
    [lia|].
  rewrite process_loop_S.
  pose proof (order_fuel P left right) as Hof.
  destruct (order P left right) as [o| | |] eqn:Ho; cbn [obind]; try discriminate;
    try congruence.
  destruct (order_answers _ _ _ _ Ho) as [->|[[-> Hr]|[[-> Hr]| ->]]].
  - discriminate.
  - pose proof (pending_next tokens right stack Hr) as Hp.
    destruct (next tokens) as [right' tokens']. cbn [fst snd] in Hp.
    apply IH. unfold pending in *. cbn [length]. lia.
  - pose proof (pending_next tokens right stack Hr) as Hp.
    destruct (next tokens) as [right' tokens']. cbn [fst snd] in Hp.
    apply IH. unfold pending in *. lia.
  - specialize (Hfin (current ++ [middle])).
    destruct (finalizer P (current ++ [middle])) as [m| | |]; cbn [obind];
      try discriminate; try congruence.
    destruct stack as [|current' stack']; [discriminate|].
    apply IH. unfold pending in *. cbn [length] in Hm. lia.
 Qed.

Lemma signature_parts_fuel handle : forall i, signature_parts i handle <> OutOfFuel.
Proof.
  induction handle as [|x rest IH]; intros i; cbn [signature_parts]; [discriminate|].
  specialize (IH (S i)).
  destruct (Nat.even i); [|destruct x]; cbn [obind]; try discriminate;
    destruct (signature_parts (S i) rest); cbn [obind]; try discriminate; congruence.
Qed.

Lemma finalize_fuel handle : finalize handle <> OutOfFuel.
Proof.
  unfold finalize. destruct (_ && _); [discriminate|].
  pose proof (signature_parts_fuel handle 0) as H.
  destruct (signature_parts 0 handle); cbn [obind]; try discriminate; try congruence.
  unfold field_of_either.
  destruct (at_index handle 0), (at_index handle 1); cbn [obind]; try discriminate;
    destruct (length handle) as [|[|l2]]; try discriminate;
    destruct (at_index handle (S l2)), (at_index handle l2); discriminate.
Qed.

Theorem Parser_process_fuel tokens : Parser_process Teacup_parser tokens <> OutOfFuel.
Proof.
  unfold Parser_process.
  destruct (next tokens) as [right tokens'] eqn:Hn.
  apply process_loop_fuel; [exact finalize_fuel|].
  unfold pending. destruct tokens as [|t rest]; cbn in Hn; injection Hn as <- <-; cbn; lia.
Qed.

(** *** Interpreter: dispatch on the signature *)

Lemma elifs_length k : (k <= String.length (elifs k +:+ " end _"))%nat.
Proof. induction k; cbn in *; lia. Qed.

(** The star of [rx_if] eats the [k] [elif] clauses and the tail closes. *)
Lemma star_elifs k : forall n prev, (k <= n)%nat ->
  star_iter (rmatch (Lit " elif E then E")) if_tail n prev (elifs k +:+ " end _") = Some "".
Proof.
  induction k as [|k IH]; intros n prev Hn.
  - destruct n; reflexivity.
  - destruct n as [|n]; [lia|].
    cbn [star_iter elifs].
    change ((" elif E then E" +:+ elifs k) +:+ " end _")
      with (" elif E then E" +:+ (elifs k +:+ " end _")).
    rewrite rmatch_Lit_app.
    replace (String.length (elifs k +:+ " end _") <?
             String.length (" elif E then E" +:+ elifs k +:+ " end _"))%nat with true.
    + rewrite IH by lia. reflexivity.
    + symmetry. apply Nat.ltb_lt. cbn. lia.
Qed.

Lemma rx_if_matches k : test rx_if (if_signature k) = true.
Proof.
  unfold test. apply search_from_here with (e := "").
  unfold match_here, rx_if, if_signature.
  cbn [Cats rmatch]. rewrite rmatch_Lit_app.
  apply star_elifs, elifs_length.
Qed.

Lemma if_signature_no_separator k :
  all_chars (fun c => negb (mem_char c (String "," (String ";" (one newline)))))
    (if_signature k) = true.
Proof.
  unfold if_signature. rewrite !all_chars_app.
  replace (all_chars _ (elifs k)) with true; [reflexivity|].
  induction k as [|k IH]; [reflexivity|]. cbn [elifs]. rewrite all_chars_app, <- IH. reflexivity.
Qed.

(** An [if] node without [else] is handled by the [if] handler: the handlers
    consulted before it ([for], [let], lambda, sequence) do not match. *)
Lemma eval_if_node n k args ops s e env :
  eval Teacup_interpreter (S n) (Ast (if_signature k) args ops s e) env
  = if_loop (self Teacup_interpreter n) env args.
Proof.
  cbn [eval]. unfold Interpreter_eval.
  change (handlers Teacup_interpreter) with
    [h_for_when; h_for; h_let; h_lambda; h_sequence; h_if; h_dot; h_index; h_empty_list; h_list;
     h_call0; h_call; h_begin; h_paren; h_operator; h_string; h_number; h_prefix; h_variable].
  cbn [dispatch].
  replace (extractArgs (key h_for_when) (Ast (if_signature k) args ops s e))
    with (@None (list node)) by reflexivity.
  replace (extractArgs (key h_for) (Ast (if_signature k) args ops s e))
    with (@None (list node)) by reflexivity.
  replace (extractArgs (key h_let) (Ast (if_signature k) args ops s e))
    with (@None (list node)) by reflexivity.
  replace (extractArgs (key h_lambda) (Ast (if_signature k) args ops s e))
    with (@None (list node)) by reflexivity.
  replace (extractArgs (key h_sequence) (Ast (if_signature k) args ops s e))
    with (@None (list node)).
  2:{ unfold extractArgs. cbn [key h_sequence guard_matches node_type].
      unfold test, rx_sequence, OneOf.
      rewrite search_Class_none; [reflexivity|]. apply if_signature_no_separator. }
  unfold extractArgs at 1. cbn [key h_if guard_matches node_type]. rewrite rx_if_matches.
  reflexivity.
Qed.

Lemma if_loop_all_false this env args st st' :
  all_false (this_eval this) env args st st' ->
  if_loop this env args st = Ret (VUndefined, st').
Proof.
  induction 1 as [st|c e rest v st st1 st2 Hc Hv _ IH]; [reflexivity|].
  cbn [if_loop]. unfold mbind at 1. rewrite Hc, Hv. exact IH.
Qed.

(** C10: an [if] node without [else], with any number of [elif] clauses,
    whose conditions all evaluate to false values, evaluates to [undefined]
    and raises nothing. *)
Theorem if_without_else_is_undefined (n k : nat) (args ops : list node) (s e : nat)
    (env : option loc) (st st' : store) :
  all_false (eval Teacup_interpreter n) env args st st' ->
  eval Teacup_interpreter (S n) (Ast (if_signature k) args ops s e) env st
  = Ret (VUndefined, st').
Proof.
  intros H. rewrite eval_if_node. now apply if_loop_all_false.
Qed.

Lemma if_without_else_witness :
  eval Teacup_interpreter 2
    (Ast "_ if E then E elif E then E end _"
       [Tok (Token "word" "false" 3 8); Tok (Token "number" "1" 14 15);
        Tok (Token "number" "0" 21 22); Tok (Token "number" "2" 28 29)]
       [Tok (Token "open" "if" 0 2); Tok (Token "middle" "then" 9 13);
        Tok (Token "middle" "elif" 16 20); Tok (Token "middle" "then" 23 27);
        Tok (Token "close" "end" 30 33)] 0 33)
    (Some 0%nat) initial_store
  = Ret (VUndefined, initial_store).
Proof.
  apply (if_without_else_is_undefined 1 1).
  eapply all_false_cons; [vm_compute; reflexivity | reflexivity |].
  eapply all_false_cons; [vm_compute; reflexivity | reflexivity |].
  apply all_false_nil.
Defined.

(** *** Calls *)

Lemma eval_infix_token n tx s e env :
  eval Teacup_interpreter (S n) (Tok (Token "infix" tx s e)) env = resolve env tx.
Proof. reflexivity. Qed.

Lemma eval_or_node n args ops s e env :
  eval Teacup_interpreter (S n) (Ast "E or E" args ops s e) env
  = runCall (self Teacup_interpreter n) (Ast "E or E" args ops s e) env.
Proof. reflexivity. Qed.

(** With a lazy callee [runCall] applies it to the thunks, from the store the
    callee's evaluation left: no argument has been evaluated. *)
Lemma runCall_lazy this n env callee args fn st st1 :
  normalizeCall n = Ret (Some (Some callee, args)) ->
  this_eval this callee env st = Ret (fn, st1) ->
  lazy_flag fn = Ret true ->
  runCall this n env st = this_call this fn (map (fun x => VThunk x env) args) st1.
Proof.
  intros Hn Hc Hl. unfold runCall. rewrite Hn. rewrite lift_Ret. cbn [need]. rewrite lift_Ret.
  cbn [fst snd eval_opt]. rewrite (mbind_Ret _ _ _ _ _ Hc). rewrite Hl. rewrite lift_Ret.
  reflexivity.
Qed.

(** C6: when the callee of a call carries the lazy marker, it is applied to
    one thunk per argument, built from the argument's node and the call-site
    environment, and nothing is evaluated in between; calling a thunk
    evaluates its node in that environment.  An argument that is not forced is
    not evaluated: when the left operand of [or] is true, [a or b] is that
    value for every right operand [b], whatever evaluating [b] would do.  The
    program [true or (1 / 0)] evaluates to [true]. *)
Theorem lazy_calls :
  (forall n node env callee args fn st st1,
     normalizeCall node = Ret (Some (Some callee, args)) ->
     eval Teacup_interpreter n callee env st = Ret (fn, st1) ->
     lazy_flag fn = Ret true ->
     runCall (self Teacup_interpreter n) node env st
     = call Teacup_interpreter n fn (map (fun x => VThunk x env) args) st1)
  /\ (forall n x env args,
        call Teacup_interpreter (S n) (VThunk x env) args = eval Teacup_interpreter n x env)
  /\ (forall n a b so eo s e env st v st',
        resolve env "or" st = Ret (VBuiltin BOr, st) ->
        eval Teacup_interpreter n a env st = Ret (v, st') ->
        truthy v = true ->
        eval Teacup_interpreter (3 + n)
          (Ast "E or E" [a; b] [Tok (Token "infix" "or" so eo)] s e) env st = Ret (v, st'))
  /\ teacup 6 "true or (1 / 0)" = Ret (VBool true).
Proof.
  split; [|split; [|split]].
  - intros n node env callee args fn st st1 Hn Hc Hl.
    exact (runCall_lazy (self Teacup_interpreter n) _ _ _ _ _ _ _ Hn Hc Hl).
  - reflexivity.
  - intros n a b so eo s e env st v st' Hor Ha Hv.
    change (3 + n)%nat with (S (S (S n))).
    rewrite eval_or_node.
    rewrite (runCall_lazy _ _ _ (Tok (Token "infix" "or" so eo)) [a; b] (VBuiltin BOr) st st).
    + cbn [self this_call call apply_function apply_builtin map arg lookup list_lookup default
           from_option id this_eval].
      rewrite (mbind_Ret _ _ _ _ _ Ha). now rewrite Hv.
    + reflexivity.
    + cbn [self this_eval]. now rewrite eval_infix_token.
    + reflexivity.
  - vm_compute. reflexivity.
Qed.

(** [true or x], where [x] is bound nowhere: [x] is never looked up. *)
Lemma lazy_calls_witness :
  eval Teacup_interpreter 4
    (Ast "E or E" [Tok (Token "word" "true" 0 4); Tok (Token "word" "x" 8 9)]
       [Tok (Token "infix" "or" 5 7)] 0 9) (Some 0%nat) initial_store
  = Ret (VBool true, initial_store)
  /\ eval Teacup_interpreter 1 (Tok (Token "word" "x" 8 9)) (Some 0%nat) initial_store
     = Throw (ReferenceError "Undefined variable: 'x'.").
Proof.
  split.
  - apply (proj1 (proj2 (proj2 lazy_calls)) 1); vm_compute; reflexivity.
  - vm_compute. reflexivity.
Defined.

(** *** [let] *)

Lemma eval_let_node n args ops s e env :
  eval Teacup_interpreter (S n) (Ast "_ let E in E end _" args ops s e) env
  = func h_let (self Teacup_interpreter n) (Ast "_ let E in E end _" args ops s e) env args.
Proof. reflexivity. Qed.

Lemma normalize_value_binding tx sx ex e ops s t :
  normalizeAssignment (assign (Tok (Token "word" tx sx ex)) e ops s t)
  = Ret (Some (Tok (Token "word" tx sx ex)), None, Some e).
Proof. reflexivity. Qed.

Lemma normalize_function_binding f ps cops cs ct e ops s t :
  normalizeAssignment (assign (Ast "E ( E ) _" [f; ps] cops cs ct) e ops s t)
  = Ret (Some f, Some (getList ps), Some e).
Proof. reflexivity. Qed.

Lemma bind_word tx sx ex l v st :
  variableBinder (Some (Tok (Token "word" tx sx ex))) l v st = Ret (tt, bind_in tx v l st).
Proof. reflexivity. Qed.

(** [let x = e1, y = e2 in body end]: both expressions are evaluated in the
    environment of the [let] itself, the second after the first is bound in
    the new frame; the body is evaluated in the new frame. *)
Lemma let_two_values n tx sx ex ty sy ey e1 e2 body o1 s1 t1 o2 s2 t2 oc sc tc ol sl tl
    p st v1 st1 v2 st2 :
  eval Teacup_interpreter n e1 (Some p) (st ++ [Frame (Some p) ∅]) = Ret (v1, st1) ->
  eval Teacup_interpreter n e2 (Some p) (bind_in tx v1 (length st) st1) = Ret (v2, st2) ->
  eval Teacup_interpreter (S n)
    (let_in (Ast "E , E" [assign (Tok (Token "word" tx sx ex)) e1 o1 s1 t1;
                          assign (Tok (Token "word" ty sy ey)) e2 o2 s2 t2] oc sc tc)
            body ol sl tl) (Some p) st
  = eval Teacup_interpreter n body (Some (length st)) (bind_in ty v2 (length st) st2).
Proof.
  intros H1 H2. unfold let_in. rewrite eval_let_node.
  cbn [func h_let lookup list_lookup need]. rewrite lift_Ret.
  replace (getList _) with
    [assign (Tok (Token "word" tx sx ex)) e1 o1 s1 t1;
     assign (Tok (Token "word" ty sy ey)) e2 o2 s2 t2] by reflexivity.
  cbn [map_outcome]. rewrite !normalize_value_binding. cbn [obind]. rewrite lift_Ret.
  unfold mbind at 1. cbn [Object_create].
  cbn [let_loop eval_opt self this_eval].
  rewrite mbind_assoc, (mbind_Ret _ _ _ _ _ H1).
  rewrite mbind_assoc, (mbind_Ret _ _ _ _ _ (bind_word _ _ _ _ _ _)).
  rewrite mbind_assoc, (mbind_Ret _ _ _ _ _ H2).
  rewrite mbind_assoc, (mbind_Ret _ _ _ _ _ (bind_word _ _ _ _ _ _)).
  reflexivity.
Qed.

(** [let f(ps) = fb in body end]: [f] is bound, in the new frame, to a
    function whose environment is that same frame. *)
Lemma let_function n tf sf ef ps cops cs ct fb o1 s1 t1 body ol sl tl p st :
  eval Teacup_interpreter (S n)
    (let_in (assign (Ast "E ( E ) _" [Tok (Token "word" tf sf ef); ps] cops cs ct) fb o1 s1 t1)
            body ol sl tl) (Some p) st
  = eval Teacup_interpreter n body (Some (length st))
      (st ++ [Frame (Some p) {[ tf := VClosure (getList ps) (Some fb) (Some (length st)) ]}]).
Proof.
  unfold let_in. rewrite eval_let_node.
  cbn [func h_let lookup list_lookup need]. rewrite lift_Ret.
  replace (getList _) with
    [assign (Ast "E ( E ) _" [Tok (Token "word" tf sf ef); ps] cops cs ct) fb o1 s1 t1]
    by reflexivity.
  cbn [map_outcome]. rewrite normalize_function_binding. cbn [obind]. rewrite lift_Ret.
  unfold mbind at 1. cbn [Object_create].
  cbn [let_loop eval_opt self this_eval buildFunction].
  rewrite mbind_assoc. unfold mbind at 1. cbn [mret].
  rewrite mbind_assoc, (mbind_Ret _ _ _ _ _ (bind_word _ _ _ _ _ _)).
  unfold mbind, mret, bind_in.
  rewrite alter_app_r_alt by lia. rewrite Nat.sub_diag. cbn [alter list_alter proto vars].
  now rewrite insert_empty.
Qed.

(** C4, as stated, fails: [y = x + 1] is evaluated in the environment
    outside the [let], where [x] is not bound, and the program raises a
    [ReferenceError] instead of giving 22. *)
Lemma let_second_binding_misses_first :
  teacup 6 "let x = 10, y = x + 1 in y * 2 end"
  = Throw (ReferenceError "Undefined variable: 'x'.").
Proof. vm_compute. reflexivity. Qed.

(** C4, amended: the bindings of a [let] are made one after the other in a
    fresh child frame; the expression of a value binding is evaluated in the
    parent environment (also after an earlier binding of the same [let], which
    it therefore does not see), the body of a function binding in the new
    frame, where the function itself is bound.  So
    [let x = 10, y = x + 1 in y * 2 end] raises a [ReferenceError] for [x],
    the nested [let x = 10 in let y = x + 1 in y * 2 end end] evaluates to 22,
    and a function bound by [let] can call itself. *)
Theorem let_bindings :
  (forall n tx sx ex ty sy ey e1 e2 body o1 s1 t1 o2 s2 t2 oc sc tc ol sl tl p st v1 st1 v2 st2,
     eval Teacup_interpreter n e1 (Some p) (st ++ [Frame (Some p) ∅]) = Ret (v1, st1) ->
     eval Teacup_interpreter n e2 (Some p) (bind_in tx v1 (length st) st1) = Ret (v2, st2) ->
     eval Teacup_interpreter (S n)
       (let_in (Ast "E , E" [assign (Tok (Token "word" tx sx ex)) e1 o1 s1 t1;
                             assign (Tok (Token "word" ty sy ey)) e2 o2 s2 t2] oc sc tc)
               body ol sl tl) (Some p) st
     = eval Teacup_interpreter n body (Some (length st)) (bind_in ty v2 (length st) st2))
  /\ (forall n tf sf ef ps cops cs ct fb o1 s1 t1 body ol sl tl p st,
        eval Teacup_interpreter (S n)
          (let_in (assign (Ast "E ( E ) _" [Tok (Token "word" tf sf ef); ps] cops cs ct)
                     fb o1 s1 t1) body ol sl tl) (Some p) st
        = eval Teacup_interpreter n body (Some (length st))
            (st ++ [Frame (Some p)
                      {[ tf := VClosure (getList ps) (Some fb) (Some (length st)) ]}]))
  /\ teacup 6 "let x = 10, y = x + 1 in y * 2 end"
     = Throw (ReferenceError "Undefined variable: 'x'.")
  /\ teacup 8 "let x = 10 in let y = x + 1 in y * 2 end end" = Ret (VNum 22)
  /\ teacup 40 "let fact(n) = if n == 0 then 1 else n * fact(n - 1) end in fact(5) end"
     = Ret (VNum 120).
Proof.
  split; [|split; [|split; [|split]]].
  - intros. eapply let_two_values; eassumption.
  - intros. apply let_function.
  - vm_compute. reflexivity.
  - vm_compute. reflexivity.
  - vm_compute. reflexivity.
Qed.

(** [let x = 1, y = 2 in x + y end] *)
Lemma let_bindings_witness :
  eval Teacup_interpreter 5
    (let_in (Ast "E , E"
               [assign (Tok (Token "word" "x" 4 5)) (Tok (Token "number" "1" 8 9))
                  [Tok (Token "infix" "=" 6 7)] 4 9;
                assign (Tok (Token "word" "y" 11 12)) (Tok (Token "number" "2" 15 16))
                  [Tok (Token "infix" "=" 13 14)] 11 16]
               [Tok (Token "infix" "," 9 10)] 4 16)
            (Ast "E + E" [Tok (Token "word" "x" 20 21); Tok (Token "word" "y" 24 25)]
               [Tok (Token "infix" "+" 22 23)] 20 25)
            [Tok (Token "open" "let" 0 3); Tok (Token "middle" "in" 17 19);
             Tok (Token "close" "end" 26 29)] 0 29)
    (Some 0%nat) initial_store
  = eval Teacup_interpreter 4
      (Ast "E + E" [Tok (Token "word" "x" 20 21); Tok (Token "word" "y" 24 25)]
         [Tok (Token "infix" "+" 22 23)] 20 25)
      (Some 1%nat)
      (bind_in "y" (VNum 2) 1
         (bind_in "x" (VNum 1) 1 (initial_store ++ [Frame (Some 0%nat) ∅]))).
Proof.
  apply (proj1 let_bindings 4 "x" 4 5 "y" 11 12 _ _ _ _ _ _ _ _ _ _ _ _ _ _ _ 0%nat
           initial_store (VNum 1) (initial_store ++ [Frame (Some 0%nat) ∅]) (VNum 2)
           (bind_in "x" (VNum 1) 1 (initial_store ++ [Frame (Some 0%nat) ∅])));
    reflexivity.
Defined.

(** *** The slips of the tagger and of indexing *)

(** C1: the code does otherwise.  A first token of kind [infix] is seen with
    [prevType = "start"], which the test for [infix] or [open] does not cover:
    it stays [infix].  So [-3 + 4] reads its minus as the binary operator,
    applied to 3 alone, and evaluates to [NaN], not to 1; after an opening
    bracket or an operator the minus is tagged and the result is 1. *)
Theorem leading_infix_is_not_tagged (tx : string) (s e : nat) (ts : list token) :
  tagPrefixOperators (Token "infix" tx s e :: ts) = Token "infix" tx s e :: tag_loop "infix" ts
  /\ Parser_process Teacup_parser
       (tagPrefixOperators (Lexer_process Teacup_lexer "-3 + 4"))
     = Ret (Obj (binary (Token "infix" "+" 3 4)
                   (Ast "_ - E" [Tok (Token "number" "3" 1 2)] [Tok (Token "infix" "-" 0 1)] 0 2)
                   (Tok (Token "number" "4" 5 6))))
  /\ teacup 6 "-3 + 4" = Ret (VNum nan)
  /\ teacup 6 "(-3) + 4" = Ret (VNum 1)
  /\ teacup 6 "4 + -3" = Ret (VNum 1).
Proof. repeat split; vm_compute; reflexivity. Qed.

(** C7: the code does otherwise.  The indexing handler evaluates its object
    with [this.eval(obj)], without the environment, so in [x[i][j]] the inner
    [x[i]] is evaluated with an undefined environment and a variable [i]
    cannot be resolved, while in [x[i, j]] the indices are evaluated in the
    environment of the expression. *)
Theorem index_list_differs_from_nested_index :
  teacup 8 "let i = 0 in [[1,2],[3,4]][i, 1] end" = Ret (VNum 2)
  /\ teacup 8 "let i = 0 in [[1,2],[3,4]][i][1] end" = Throw TypeError
  /\ teacup 8 "[[1,2],[3,4]][0, 1]" = Ret (VNum 2)
  /\ teacup 8 "[[1,2],[3,4]][0][1]" = Ret (VNum 2)
  /\ teacup 8 "let x = [1,2] in x[0] end" = Throw TypeError.
Proof. repeat split; vm_compute; reflexivity. Qed.

(** ** Further properties of the code *)

Lemma tag_loop_rule ts : forall p,
  tag_loop p ts = zip_with retag (p :: map type ts) ts.
Proof.
  induction ts as [|t ts IH]; intros p; [reflexivity|].
  cbn [tag_loop map zip_with]. unfold retag at 1. rewrite !IH.
  destruct (String.eqb_spec p "start") as [Hp|Hp];
    destruct (String.eqb_spec (type t) "open") as [Ho|Ho];
    destruct (String.eqb_spec (type t) "infix") as [Hi|Hi];
    cbn [andb]; try reflexivity; try (rewrite Ho in Hi; discriminate);
    destruct ((p =? "infix") || (p =? "open")); reflexivity.
Qed.

(** X1: The prefix tagger decides every token from its own type and the
    original type of the token before it ('start' before the first): an
    infix token becomes prefix exactly when the token before it was, before
    any retagging, of type infix or open. The number of tokens, their texts
    and their offsets are kept. *)
Theorem tagger_rule (ts : list token) :
  tagPrefixOperators ts = zip_with retag ("start" :: map type ts) ts
  /\ length (tagPrefixOperators ts) = length ts
  /\ map text (tagPrefixOperators ts) = map text ts
  /\ map start (tagPrefixOperators ts) = map start ts
  /\ map end_ (tagPrefixOperators ts) = map end_ ts.
Proof.
  unfold tagPrefixOperators. rewrite tag_loop_rule.
  generalize "start". induction ts as [|t ts IH]; intros p; [repeat split|].
  cbn [map zip_with length].
  destruct (IH (type t)) as (_ & Hl & Ht & Hs & He).
  repeat split; try (f_equal; assumption).
  all: f_equal; try assumption; unfold retag; destruct (_ && _); reflexivity.
Qed.

Lemma string_append_assoc (a b c : string) : (a +:+ b) +:+ c = a +:+ (b +:+ c).
Proof. induction a as [|x a IH]; cbn; [reflexivity|]. now rewrite IH. Qed.

Lemma string_length_app (a b : string) : String.length (a +:+ b) = String.length a + String.length b.
Proof. induction a as [|x a IH]; cbn; [reflexivity|]. now rewrite IH. Qed.

Lemma flatten_app l1 l2 : flatten (l1 ++ l2) = flatten l1 +:+ flatten l2.
Proof. induction l1 as [|x l1 IH]; cbn; [reflexivity|]. now rewrite IH, string_append_assoc. Qed.

Lemma first_group_index rs : forall i prev s g rest,
  first_group rs i prev s = Some (g, rest) -> i <= g < i + length rs.
Proof.
  induction rs as [|r rs IH]; intros i prev s g rest H; cbn in H; [discriminate|].
  destruct (match_here r prev s).
  - injection H as <- _. cbn. lia.
  - apply IH in H. cbn. lia.
Qed.

Lemma within_spec a g n :
  (a <=? g)%nat && (g <? a + n)%nat = true <-> a <= g < a + n.
Proof. rewrite andb_true_iff, Nat.leb_le, Nat.ltb_lt. tauto. Qed.

Lemma flatten_captures m g n : forall a,
  flatten (map (fun i => if (i =? g)%nat then Some m else None) (seq a n))
  = if (a <=? g)%nat && (g <? a + n)%nat then m else "".
Proof.
  induction n as [|n IH]; intros a; cbn [seq map flatten].
  - destruct (_ && _) eqn:E; [|reflexivity]. apply within_spec in E. lia.
  - rewrite IH. destruct (Nat.eqb_spec a g) as [->|Hne]; cbn [default from_option id].
    + destruct ((S g <=? g)%nat && _) eqn:E1; [apply within_spec in E1; lia|].
      destruct ((g <=? g)%nat && _) eqn:E2; [apply append_empty|].
      apply not_true_iff_false in E2. rewrite within_spec in E2. lia.
    + cbn [String.append].
      destruct ((S a <=? g)%nat && _) eqn:E1, ((a <=? g)%nat && _) eqn:E2; try reflexivity.
      * apply within_spec in E1. apply not_true_iff_false in E2. rewrite within_spec in E2. lia.
      * apply within_spec in E2. apply not_true_iff_false in E1. rewrite within_spec in E1. lia.
Qed.

Lemma substring_drop s : forall n, substring 0 n s +:+ string_drop n s = s.
Proof.
  induction s as [|c s IH]; intros [|n]; cbn; try reflexivity. now rewrite IH.
Qed.

(** The pieces of a split, put together again, are the text. *)
Lemma split_from_flatten rs s : forall prev skip gap,
  flatten (split_from rs prev skip gap s) = gap +:+ string_drop skip s.
Proof.
  induction s as [|c s IH]; intros prev skip gap.
  - cbn. destruct skip; cbn; reflexivity.
  - cbn [split_from]. destruct skip as [|n]; [|now rewrite IH].
    cbn [string_drop].
    destruct (first_group rs 0 prev (String c s)) as [[g rest]|] eqn:Hg.
    + apply first_group_index in Hg.
      destruct (String.length (String c s) - String.length rest) as [|k] eqn:Hlen; cbn [Nat.eqb].
      * destruct (String.eqb_spec gap "") as [->|Hgap].
        -- rewrite IH. reflexivity.
        -- cbn [flatten default from_option id]. rewrite flatten_app, IH.
           unfold captures. rewrite flatten_captures.
           destruct (_ && _); reflexivity.
      * cbn [flatten default from_option id]. rewrite flatten_app, IH.
        unfold captures. rewrite flatten_captures.
        replace ((0 <=? g)%nat && (g <? 0 + length rs)%nat) with true
          by (symmetry; apply andb_true_iff; split; [apply Nat.leb_le|apply Nat.ltb_lt]; lia).
        f_equal. cbn [String.append].
        replace (S k - 1) with k by lia.
        change (string_drop k s) with (string_drop (S k) (String c s)).
        apply substring_drop.
    + rewrite IH. cbn [string_drop]. apply append_one_cons.
Qed.

Lemma split_flatten rs text : flatten (split rs text) = text.
Proof. unfold split. now rewrite split_from_flatten. Qed.

Lemma substring_here pre tx rest :
  substring (String.length pre) (String.length tx) (pre +:+ tx +:+ rest) = tx.
Proof.
  induction pre as [|c pre IH]; cbn.
  - induction tx as [|c tx IH]; cbn; [destruct rest; reflexivity|]. now rewrite IH.
  - exact IH.
Qed.

Lemma map_pieces_slices types l : forall i pos pre p tx,
  String.length pre = pos ->
  p ∈ map_pieces types i pos l ->
  ptext p = Some tx ->
  substring (pstart p) (String.length tx) (pre +:+ flatten l) = tx
  /\ pend p = pstart p + String.length tx.
Proof.
  induction l as [|t l IH]; intros i pos pre p tx Hpos Hin Htx; cbn in Hin.
  - inversion Hin.
  - apply elem_of_cons in Hin as [->|Hin].
    + cbn in Htx |- *. subst t. cbn. split; [|reflexivity].
      rewrite <- Hpos. apply substring_here.
    + cbn [flatten]. rewrite <- string_append_assoc.
      eapply IH; [|exact Hin|exact Htx].
      rewrite string_length_app, Hpos. destruct t; reflexivity.
Qed.

Lemma map_pieces_types types l : forall i pos p,
  p ∈ map_pieces types i pos l -> ptype p = None \/ ptype p ∈ types.
Proof.
  induction l as [|t l IH]; intros i pos p Hin; cbn in Hin.
  - inversion Hin.
  - apply elem_of_cons in Hin as [->|Hin]; [|eauto].
    cbn. destruct (types !! (i mod length types)) as [o|] eqn:E; cbn; [|now left].
    right. eapply list_elem_of_lookup_2; eauto.
Qed.

Lemma keep_Some p t :
  keep p = Some t ->
  ptype p = Some (type t) /\ ptext p = Some (text t) /\ start t = pstart p /\ end_ t = pend p
  /\ type t <> "" /\ type t <> "comment" /\ text t <> "".
Proof.
  unfold keep. destruct (ptype p) as [ty|], (ptext p) as [tx|]; try discriminate.
  destruct (String.eqb_spec ty ""), (String.eqb_spec ty "comment"), (String.eqb_spec tx "");
    cbn; try discriminate.
  intros [= <-]. cbn. auto 10.
Qed.

(** X2: For every token definition table and every source text, the text of
    each token the lexer returns is the slice of the source between the
    token's start and end offsets; its end is its start plus the length of
    its text, and its text is not empty. *)
Theorem tokens_are_slices (L : Lexer) (source : string) (t : token) :
  In t (Lexer_process L source) ->
  substring (start t) (String.length (text t)) source = text t
  /\ end_ t = start t + String.length (text t)
  /\ text t <> "".
Proof.
  unfold Lexer_process. intros Hin. apply list_elem_of_In in Hin.
  apply list_elem_of_omap in Hin as (p & Hp & Hk).
  apply keep_Some in Hk as (Hty & Htx & Hs & He & _ & _ & Hne).
  destruct (map_pieces_slices (types L) _ 0 0 "" p (text t) eq_refl Hp Htx) as [H1 H2].
  cbn [String.append] in H1. rewrite split_flatten in H1.
  rewrite Hs, He. auto.
Qed.

Lemma in_order_le a b ts : b <= a -> in_order a ts -> in_order b ts.
Proof. destruct ts; cbn; [auto|]. intros ? (? & ? & ?). repeat split; auto; lia. Qed.

Lemma map_pieces_in_order types l : forall i pos,
  in_order pos (omap keep (map_pieces types i pos l)).
Proof.
  induction l as [|t l IH]; intros i pos; cbn; [exact I|].
  specialize (IH (S i) (pos + strlen t)).
  destruct (keep _) as [tok|] eqn:Hk.
  - apply keep_Some in Hk as (_ & Htx & Hs & He & _ & _ & Hne). cbn in Htx, Hs, He.
    cbn. subst t. cbn in He, IH. rewrite Hs, He.
    repeat split; [lia| |exact IH].
    destruct (text tok); [congruence|cbn; lia].
  - eapply in_order_le; [|exact IH]. lia.
Qed.

(** X3: The tokens of a lexer come in source order and do not overlap: each
    starts at or after the end of the one before it and ends after it
    starts. *)
Theorem tokens_in_order (L : Lexer) (source : string) :
  in_order 0 (Lexer_process L source).
Proof. apply map_pieces_in_order. Qed.

Lemma lexer_kinds (source : string) (t : token) :
  In t (Lexer_process Teacup_lexer source) -> In (type t) Teacup_kinds.
Proof.
  unfold Lexer_process. intros Hin. apply list_elem_of_In in Hin.
  apply list_elem_of_omap in Hin as (p & Hp & Hk).
  apply keep_Some in Hk as (Hty & _ & _ & _ & Hne & Hnc & _).
  apply map_pieces_types in Hp as [Hp|Hp]; [congruence|].
  rewrite Hty in Hp. apply list_elem_of_In in Hp. cbn in Hp.
  unfold Teacup_kinds. cbn.
  repeat (destruct Hp as [Hp|Hp]; [try discriminate; injection Hp as Hp; auto 10; congruence|]).
  contradiction.
Qed.

(** X4: Every token of Teacup's lexer has one of the types number, open,
    middle, close, infix, word, string: comments and the unmatched text
    between matches never reach the parser. *)
Theorem Teacup_token_kinds (source : string) (t : token) :
  In t (Lexer_process Teacup_lexer source) -> In (type t) Teacup_kinds.
Proof. apply lexer_kinds. Qed.

Lemma Teacup_token_kinds_witness :
  In "open" Teacup_kinds.
Proof.
  apply (Teacup_token_kinds "x = (1 # one" (Token "open" "(" 4 5)).
  vm_compute. tauto.
Defined.

Lemma slices_witness :
  substring 4 1 "let x = 10" = "x" /\ 5 = 4 + 1 /\ "x" <> "".
Proof.
  apply (tokens_are_slices Teacup_lexer "let x = 10" (Token "word" "x" 4 5)).
  vm_compute. tauto.
Defined.

Lemma pair_ind (Q : list slot -> Prop) :
  Q [] -> (forall x, Q [x]) -> (forall x y l, Q l -> Q (x :: y :: l)) -> forall l, Q l.
Proof.
  intros H0 H1 H2 l.
  assert (H : Q l /\ forall x, Q (x :: l)).
  { induction l as [|y l [IH1 IH2]]; split; auto. }
  apply H.
Qed.

Lemma alternating_app P h h' :
  alternating P h -> alternating P h' -> alternating P (h ++ h').
Proof.
  induction h as [|x|x y l IH] using pair_ind; cbn; intros H H'; tauto.
Qed.

Lemma has_prio_Obj P x : has_prio P x -> exists n, x = Obj n.
Proof. destruct x; cbn; try tauto. eauto. Qed.

Lemma last_of_open P h : open_handle P h -> has_prio P (last_of h).
Proof.
  intros [Hne H]. induction h as [|x|x y l IH] using pair_ind; cbn in H; try tauto.
  destruct H as (_ & Hy & Hl). destruct l as [|z l]; [exact Hy|].
  specialize (IH ltac:(discriminate) Hl). unfold last_of in *. exact IH.
Qed.

Lemma signature_parts_alternating P m h : forall i,
  Nat.even i = true -> alternating P h ->
  exists parts, signature_parts i (h ++ [m]) = Ret parts.
Proof.
  induction h as [|x|x y l IH] using pair_ind; intros i Hi H; cbn in H; try tauto.
  - cbn. rewrite Hi. cbn. eauto.
  - destruct H as (_ & Hy & Hl). apply has_prio_Obj in Hy as [n ->].
    cbn [app signature_parts]. rewrite Hi.
    replace (Nat.even (S i)) with false
      by (rewrite Nat.even_succ, <- Nat.negb_even, Hi; reflexivity).
    destruct (IH (S (S i))) as [parts Hp]; [now rewrite Nat.even_succ_succ|exact Hl|].
    rewrite Hp. cbn. eauto.
Qed.

Lemma finalize_closes P h m :
  open_handle P h -> operand m -> exists n, finalize (h ++ [m]) = Ret (Obj n).
Proof.
  intros Ho Hm. pose proof (last_of_open P h Ho) as Hlast.
  destruct Ho as [Hne Ha].
  destruct h as [|m0 [|op rest]]; cbn in Ha; try tauto.
  destruct Ha as (Hm0 & Hop & Hrest).
  pose proof Hop as Hop'. apply has_prio_Obj in Hop' as [o ->].
  unfold finalize.
  destruct (_ && _); [cbn; eauto|].
  assert (Halt : alternating P (m0 :: Obj o :: rest)) by (cbn; auto).
  destruct (signature_parts_alternating P m (m0 :: Obj o :: rest) 0 eq_refl Halt)
    as [parts ->].
  cbn [obind].
  replace (field_of_either node_start _ _) with
    (Ret (match m0 with Obj n => node_start n | _ => node_start o end))
    by (destruct m0; reflexivity).
  cbn [obind].
  apply has_prio_Obj in Hlast as [lo Hlo].
  rewrite length_app. cbn [length]. replace (S (S (length rest)) + 1) with (S (S (S (length rest)))) by lia.
  replace (at_index ((m0 :: Obj o :: rest) ++ [m]) (S (length rest))) with (Obj lo).
  2:{ unfold at_index. rewrite lookup_app_l by (cbn; lia).
      unfold last_of in Hlo. rewrite last_lookup in Hlo. cbn [length Nat.pred] in Hlo.
      destruct ((m0 :: Obj o :: rest) !! S (length rest)); cbn in *; congruence. }
  replace (field_of_either node_end _ (Obj lo)) with
    (Ret (match at_index ((m0 :: Obj o :: rest) ++ [m]) (S (S (length rest))) with
          | Obj n => node_end n | _ => node_end lo end))
    by (destruct (at_index _ _); reflexivity).
  cbn [obind]. eauto.
Qed.

Lemma order_defined P a b :
  (a = Undefined \/ has_prio P a) -> (b = Undefined \/ has_prio P b) ->
  exists o, order P a b = Ret o.
Proof.
  intros [->|Ha] [->|Hb]; cbn; eauto.
  - apply has_prio_Obj in Hb as [n ->]. cbn. eauto.
  - apply has_prio_Obj in Ha as [n ->]. cbn. eauto.
  - destruct a as [| |x], b as [| |y]; cbn in Ha, Hb; try tauto.
    destruct Ha as [pa Ha], Hb as [pb Hb]. cbn. rewrite Ha, Hb. cbn. eauto.
Qed.

Lemma order_done P a b :
  order P a b = Ret Done -> truthy_slot a = false /\ truthy_slot b = false.
Proof.
  destruct a as [| |x], b as [| |y]; cbn; try discriminate; auto.
  destruct (getPrio P x); try discriminate. destruct (getPrio P y); discriminate.
Qed.

Lemma order_close_left P a b : order P a b = Ret (Sign (-1)) -> truthy_slot a = true.
Proof.
  destruct a as [| |x]; [destruct b; cbn; discriminate..|reflexivity].
Qed.

Lemma order_merge_left P a b : order P a b = Ret (Sign 0) -> truthy_slot a = true.
Proof.
  destruct a as [| |x]; [destruct b; cbn; discriminate..|reflexivity].
Qed.

Lemma next_prio P tokens :
  Forall (fun t => has_prio P (Obj (Tok t))) tokens ->
  (fst (next tokens) = Undefined \/ has_prio P (fst (next tokens)))
  /\ Forall (fun t => has_prio P (Obj (Tok t))) (snd (next tokens)).
Proof.
  intros H. destruct H as [|t rest Ht Hrest]; cbn; auto.
Qed.

Lemma handles_last P stack current :
  handles P stack current ->
  (stack = [] /\ current = [Null; Undefined]) \/
  (exists below stack', stack = below :: stack' /\ handles P stack' below
                        /\ open_handle P current).
Proof. intros [|]; eauto 10. Qed.

Lemma objects_tokens h : forall i,
  flat_map tokens_of (odd_objects i h) ++ flat_map tokens_of (even_objects i h)
  ≡ₚ handle_tokens h.
Proof.
  induction h as [|x h IH]; intros i; [reflexivity|].
  destruct x as [| |n]; cbn [odd_objects even_objects handle_tokens flat_map slot_tokens app];
    try apply IH.
  fold (handle_tokens h). rewrite <- (IH (S i)).
  rewrite <- Nat.negb_even. destruct (Nat.even i); cbn [negb flat_map]; solve_Permutation.
Qed.

Lemma finalize_tokens h r :
  finalize h = Ret r -> slot_tokens r ≡ₚ handle_tokens h.
Proof.
  unfold finalize. destruct (_ && _) eqn:E.
  - intros [= <-]. apply andb_true_iff in E as [E E2]. apply andb_true_iff in E as [E0 E1].
    apply Nat.eqb_eq in E0.
    destruct h as [|x0 [|x1 [|x2 [|]]]]; try discriminate.
    cbn in E1, E2. unfold at_index. cbn.
    destruct x0, x2; try discriminate; cbn; rewrite ?app_nil_r; reflexivity.
  - destruct (signature_parts 0 h); try discriminate. cbn [obind].
    destruct (field_of_either _ _ _); try discriminate. cbn [obind].
    destruct (match length h with S (S _) => _ | _ => _ end); try discriminate.
    cbn [obind]. intros [= <-]. cbn [slot_tokens tokens_of]. apply objects_tokens.
Qed.

Lemma handle_tokens_app h h' : handle_tokens (h ++ h') = handle_tokens h ++ handle_tokens h'.
Proof. apply flat_map_app. Qed.

Lemma next_tokens tokens : slot_tokens (fst (next tokens)) ++ snd (next tokens) = tokens.
Proof. destruct tokens; reflexivity. Qed.

Lemma process_loop_parses P (all : list token) :
  finalizer P = finalize ->
  forall fuel tokens stack middle left right current,
    handles P stack current -> left = last_of current -> operand middle ->
    (right = Undefined \/ has_prio P right) ->
    Forall (fun t => has_prio P (Obj (Tok t))) tokens ->
    (stack = [] -> middle = Null -> next all = (right, tokens)) ->
    (right = Undefined -> tokens = []) ->
    pending tokens right stack < fuel ->
    exists r, process_loop fuel P tokens stack middle left right current = Ret r
              /\ operand r /\ (r = Null -> all = [])
              /\ slot_tokens r ≡ₚ flat_map handle_tokens stack ++ handle_tokens current
                                   ++ slot_tokens middle ++ slot_tokens right ++ tokens.
Proof.
  intros Hfin. induction fuel as [|fuel IH];
    intros tokens stack middle left right current Hh Hl Hm Hr Ht Hall Hno Hp; [lia|].
  rewrite process_loop_S.
  assert (Hleft : left = Undefined \/ has_prio P left).
  { subst left. destruct (handles_last _ _ _ Hh) as [[_ ->]|(b & s' & _ & _ & Ho)];
      [now left|right; now apply last_of_open]. }
  destruct (order_defined P left right Hleft Hr) as [o Ho]. rewrite Ho. cbn [obind].
  destruct (order_answers _ _ _ _ Ho) as [->|[[-> Hrt]|[[-> Hrt]| ->]]].
  - exists middle. apply order_done in Ho as [Hlf Hrf].
    destruct (handles_last _ _ _ Hh) as [[-> ->]|(b & s' & -> & Hb & Hoh)].
    + assert (right = Undefined).
      { destruct Hr as [->|Hr]; [reflexivity|].
        apply has_prio_Obj in Hr as [n ->]. discriminate. }
      subst right. rewrite (Hno eq_refl). repeat split; auto.
      * intros ->. specialize (Hall eq_refl eq_refl).
        destruct all as [|t rest]; [reflexivity|]. cbn in Hall. discriminate.
      * cbn. now rewrite app_nil_r.
    + apply last_of_open in Hoh. rewrite <- Hl in Hoh.
      apply has_prio_Obj in Hoh as [n ->]. discriminate.
  - pose proof (pending_next tokens right stack Hrt) as Hpn.
    destruct (next_prio P tokens Ht) as [Hr' Ht'].
    pose proof (next_tokens tokens) as Hnt.
    assert (Hno' : fst (next tokens) = Undefined -> snd (next tokens) = [])
      by (destruct tokens; [reflexivity|discriminate]).
    destruct (next tokens) as [right' tokens']. cbn [fst snd] in *.
    assert (Hro : has_prio P right) by (destruct Hr as [->|]; [discriminate|assumption]).
    destruct (IH tokens' (current :: stack) Null right right' [middle; right])
      as (r & Hrun & Hop & Hnull & Hperm); auto.
    + constructor; [assumption|]. split; [discriminate|]. cbn. auto.
    + discriminate.
    + discriminate.
    + unfold pending in *. cbn [length]. lia.
    + exists r. repeat split; auto. rewrite Hperm, <- Hnt.
      cbn [flat_map handle_tokens slot_tokens app]. fold (handle_tokens current).
      rewrite !app_nil_r. solve_Permutation.
  - pose proof (pending_next tokens right stack Hrt) as Hpn.
    destruct (next_prio P tokens Ht) as [Hr' Ht'].
    pose proof (next_tokens tokens) as Hnt.
    assert (Hno' : fst (next tokens) = Undefined -> snd (next tokens) = [])
      by (destruct tokens; [reflexivity|discriminate]).
    destruct (next tokens) as [right' tokens']. cbn [fst snd] in *.
    assert (Hro : has_prio P right) by (destruct Hr as [->|]; [discriminate|assumption]).
    apply order_merge_left in Ho.
    destruct (handles_last _ _ _ Hh) as [[_ ->]|(b & s' & -> & Hb & Hoh)];
      [subst left; discriminate|].
    destruct (IH tokens' (b :: s') Null right right' (current ++ [middle; right]))
      as (r & Hrun & Hop & Hnull & Hperm); auto.
    + constructor; [assumption|]. destruct Hoh as [Hne Ha]. split.
      * destruct current; [congruence|discriminate].
      * apply alternating_app; [assumption|]. cbn. auto.
    + unfold last_of. rewrite last_app. reflexivity.
    + discriminate.
    + discriminate.
    + unfold pending in *. lia.
    + exists r. repeat split; auto. rewrite Hperm, <- Hnt, handle_tokens_app.
      cbn [flat_map handle_tokens slot_tokens app].
      rewrite !app_nil_r. solve_Permutation.
  - apply order_close_left in Ho.
    destruct (handles_last _ _ _ Hh) as [[_ ->]|(b & s' & -> & Hb & Hoh)];
      [subst left; discriminate|].
    rewrite Hfin. destruct (finalize_closes P current middle Hoh Hm) as [n Hn].
    rewrite Hn. cbn [obind]. apply finalize_tokens in Hn. rewrite handle_tokens_app in Hn.
    destruct (IH tokens s' (Obj n) (last_of b) right b)
      as (r & Hrun & Hop & Hnull & Hperm); auto.
    + discriminate.
    + discriminate.
    + unfold pending in *. cbn [length] in Hp. lia.
    + exists r. repeat split; auto. rewrite Hperm, Hn.
      cbn [flat_map handle_tokens slot_tokens app]. rewrite !app_nil_r.
      fold (handle_tokens b). solve_Permutation.
Qed.

Lemma parse_returns (P : Parser) (tokens : list token) :
  finalizer P = finalize ->
  Forall (fun t => exists p, getPrio P (Tok t) = Ret p) tokens ->
  exists root, Parser_process P tokens = Ret root
               /\ root <> Undefined /\ (root = Null <-> tokens = [])
               /\ slot_tokens root ≡ₚ tokens.
Proof.
  intros Hfin Ht. unfold Parser_process.
  assert (Ht' : Forall (fun t => has_prio P (Obj (Tok t))) tokens) by exact Ht.
  destruct (next_prio P tokens Ht') as [Hr Hrest].
  pose proof (next_tokens tokens) as Hnt.
  assert (Hno : fst (next tokens) = Undefined -> snd (next tokens) = [])
    by (destruct tokens; [reflexivity|discriminate]).
  destruct (next tokens) as [right tokens'] eqn:Hn. cbn [fst snd] in *.
  destruct (process_loop_parses P tokens Hfin (2 * length tokens + 1) tokens' [] Null
              Undefined right [Null; Undefined]) as (r & Hrun & Hop & Hnull & Hperm); auto.
  - constructor.
  - discriminate.
  - unfold pending. destruct tokens as [|t rest]; cbn in Hn; injection Hn as <- <-; cbn; lia.
  - exists r. repeat split; auto.
    + intros ->. cbn in Hn. injection Hn as <- <-. cbn in Hrun. congruence.
    + rewrite Hperm, <- Hnt. reflexivity.
Qed.

(** X5: With the standard finalizer, when every token has a priority entry
    Parser.process returns a tree without raising (twice the number of
    tokens plus one turns of its loop suffice): the result is null exactly
    when there is no token, is never undefined, and holds exactly the
    tokens it was given, none dropped and none twice. *)
Theorem parser_accepts (P : Parser) (tokens : list token) :
  finalizer P = finalize ->
  Forall (fun t => exists p, getPrio P (Tok t) = Ret p) tokens ->
  exists root, Parser_process P tokens = Ret root
               /\ root <> Undefined /\ (root = Null <-> tokens = [])
               /\ slot_tokens root ≡ₚ tokens.
Proof. apply parse_returns. Qed.

Lemma parser_accepts_witness :
  exists root,
    Parser_process {| priorities := {[ "type:word" := xassoc 1 ]}; finalizer := finalize |}
      [Token "word" "f" 0 1; Token "word" "x" 2 3] = Ret root
    /\ root <> Undefined
    /\ (root = Null <-> [Token "word" "f" 0 1; Token "word" "x" 2 3] = [])
    /\ slot_tokens root ≡ₚ [Token "word" "f" 0 1; Token "word" "x" 2 3].
Proof.
  apply (parser_accepts {| priorities := {[ "type:word" := xassoc 1 ]}; finalizer := finalize |}).
  - reflexivity.
  - repeat constructor; eexists; vm_compute; reflexivity.
Defined.




Lemma getPrio_type_fallback P t p :
  priorities P !! ("type:" +:+ node_type t) = Some p -> exists q, getPrio P t = Ret q.
Proof.
  intros H. unfold getPrio.
  destruct (priorities P !! (node_type t +:+ ":" +:+ str_of (node_text t))); [eauto|].
  destruct (node_text t ≫= _); [eauto|].
  rewrite H. eauto.
Qed.

Lemma getPrio_kind t :
  In (type t) (Teacup_kinds ++ ["prefix"]) -> exists p, getPrio Teacup_parser (Tok t) = Ret p.
Proof.
  intros H. cbn in H.
  repeat (destruct H as [H|H];
          [eapply getPrio_type_fallback; cbn [node_type]; rewrite <- H; vm_compute; reflexivity|]).
  contradiction.
Qed.

Lemma tag_loop_kinds ts : forall p,
  Forall (fun t => In (type t) Teacup_kinds) ts ->
  Forall (fun t => In (type t) (Teacup_kinds ++ ["prefix"])) (tag_loop p ts).
Proof.
  induction ts as [|t ts IH]; intros p H; [constructor|].
  inversion H as [|? ? Ht Hts]; subst. cbn [tag_loop].
  assert (Hin : In (type t) (Teacup_kinds ++ ["prefix"])) by (apply in_or_app; now left).
  destruct (_ && _); [constructor; auto|].
  destruct (_ && _); constructor; auto.
  cbn. auto 10.
Qed.

Lemma tag_loop_length ts : forall p, length (tag_loop p ts) = length ts.
Proof.
  induction ts as [|t ts IH]; intros p; [reflexivity|]. cbn [tag_loop].
  destruct (_ && _); [cbn; now rewrite IH|]. destruct (_ && _); cbn; now rewrite IH.
Qed.

(** X6: For every source text, Teacup's lexer, prefix tagger and parser
    together return a tree and raise nothing (there is no syntax error
    before evaluation): the tree is null exactly when the lexer finds no
    token, and it holds exactly the tagged tokens. *)
Theorem Teacup_parser_accepts (source : string) :
  exists root,
    Parser_process Teacup_parser (tagPrefixOperators (Lexer_process Teacup_lexer source))
    = Ret root
    /\ root <> Undefined
    /\ (root = Null <-> Lexer_process Teacup_lexer source = [])
    /\ slot_tokens root ≡ₚ tagPrefixOperators (Lexer_process Teacup_lexer source).
Proof.
  destruct (parse_returns Teacup_parser
              (tagPrefixOperators (Lexer_process Teacup_lexer source)) eq_refl)
    as (root & Hr & Hu & Hn & Hp).
  - unfold tagPrefixOperators.
    eapply Forall_impl; [apply tag_loop_kinds|intros t; apply getPrio_kind].
    apply Forall_forall. intros t Hin. apply (lexer_kinds source t).
    first [exact Hin | apply list_elem_of_In; exact Hin].
  - exists root. repeat split; auto.
    + intros H. apply Hn in H. apply (f_equal (@length token)) in H.
      unfold tagPrefixOperators in H. rewrite tag_loop_length in H.
      destruct (Lexer_process Teacup_lexer source); [reflexivity|discriminate].
    + intros H. apply Hn. rewrite H. reflexivity.
Qed.

(** X7: A program in which the lexer finds no token (empty, blank or only a
    comment) makes teacup raise a TypeError: the parser hands null to the
    interpreter, whose eval reads null.type. *)
Theorem program_without_tokens (fuel : nat) (source : string) :
  Lexer_process Teacup_lexer source = [] -> teacup fuel source = Throw TypeError.
Proof. intros H. unfold teacup. rewrite H. reflexivity. Qed.

Lemma program_without_tokens_witness :
  teacup 10 "  # nothing but a comment" = Throw TypeError.
Proof. apply program_without_tokens. vm_compute. reflexivity. Defined.

(** X8: When the first of two or more tokens has none of the three priority
    keys (type:text, text, type:<type>), Parser.process raises SyntaxError
    'Unknown operator: <text>'; a single such token is accepted and
    returned as it is, since the priority of a lone token is never looked
    up. *)
Theorem unknown_operator (P : Parser) (a b : token) (rest : list token) :
  priorities P !! (type a +:+ ":" +:+ text a) = None ->
  priorities P !! text a = None ->
  priorities P !! ("type:" +:+ type a) = None ->
  Parser_process P (a :: b :: rest) = Throw (SyntaxError ("Unknown operator: " +:+ text a))
  /\ (finalizer P = finalize -> Parser_process P [a] = Ret (Obj (Tok a))).
Proof.
  intros H1 H2 H3. split.
  - unfold Parser_process. cbn [next length Nat.mul Nat.add].
    rewrite process_loop_S. cbn [order obind next].
    rewrite process_loop_S. cbn [order]. unfold getPrio at 1.
    cbn [node_type node_text str_of default from_option id].
    rewrite H1. cbn [base.mbind option_bind]. rewrite H2, H3. reflexivity.
  - intros Hfin. unfold Parser_process. cbn [next length Nat.mul Nat.add].
    rewrite process_loop_S. cbn [order obind next].
    rewrite process_loop_S. cbn [order obind app]. rewrite Hfin. cbn.
    reflexivity.
Qed.

Lemma unknown_operator_witness :
  Parser_process {| priorities := {[ "type:word" := xassoc 1 ]}; finalizer := finalize |}
    [Token "infix" "+" 0 1; Token "word" "x" 1 2]
  = Throw (SyntaxError "Unknown operator: +").
Proof.
  apply (unknown_operator {| priorities := {[ "type:word" := xassoc 1 ]}; finalizer := finalize |}
           (Token "infix" "+" 0 1) (Token "word" "x" 1 2) []); vm_compute; reflexivity.
Defined.

Lemma order_eq P a b pa pb :
  getPrio P a = Ret pa -> getPrio P b = Ret pb -> left pa = right pb ->
  order P (Obj a) (Obj b) = Ret (Sign 0).
Proof. intros Ha Hb H. unfold order. rewrite Ha, Hb. cbn [obind]. do 2 f_equal. lia. Qed.

Section Precedence.
Variable P : Parser.
Hypothesis Hfin : finalizer P = finalize.
Variables a o1 b o2 c : token.
Variables pa po1 pb po2 pc : prio.
Hypothesis Ha : getPrio P (Tok a) = Ret pa.
Hypothesis Hb : getPrio P (Tok b) = Ret pb.
Hypothesis Hc : getPrio P (Tok c) = Ret pc.
Hypothesis Ho1 : getPrio P (Tok o1) = Ret po1.
Hypothesis Ho2 : getPrio P (Tok o2) = Ret po2.
Hypothesis Hao : (right po1 < left pa)%Z.
Hypothesis Hob : (left po1 < right pb)%Z.
Hypothesis Hbo : (right po2 < left pb)%Z.
Hypothesis Hoc : (left po2 < right pc)%Z.

Lemma parse_merged :
  left po1 = right po2 ->
  Parser_process P [a; o1; b; o2; c] = Ret (Obj (ternary o1 o2 (Tok a) (Tok b) (Tok c))).
Proof using All.
  intros Hoo. unfold Parser_process. cbn [next length Nat.mul Nat.add].
  parser_step (eq_refl : order P Undefined (Obj (Tok a)) = Ret (Sign 1)).
  parser_step (order_gt _ _ _ _ _ Ha Ho1 Hao).
  parser_step (eq_refl : order P Undefined (Obj (Tok o1)) = Ret (Sign 1)).
  parser_step (order_lt _ _ _ _ _ Ho1 Hb Hob).
  parser_step (order_gt _ _ _ _ _ Hb Ho2 Hbo).
  parser_step (order_eq _ _ _ _ _ Ho1 Ho2 Hoo).
  parser_step (order_lt _ _ _ _ _ Ho2 Hc Hoc).
  parser_step (eq_refl : order P (Obj (Tok c)) Undefined = Ret (Sign (-1))).
  parser_step (eq_refl : order P (Obj (Tok o2)) Undefined = Ret (Sign (-1))).
  parser_step (eq_refl : order P Undefined Undefined = Ret Done).
  reflexivity.
Qed.
End Precedence.

(** X9: For a o1 b o2 c with atoms a, b, c of priority 20005 and operators
    of lower priority, the parser compares the left priority of o1 with the
    right priority of o2: smaller nests to the right, a o1 (b o2 c);
    greater nests to the left, (a o1 b) o2 c; equal merges both operators
    into one node E o1 E o2 E with three arguments. *)
Theorem precedence_decides_nesting (P : Parser) (a o1 b o2 c : token) (p1 p2 : prio) :
  finalizer P = finalize ->
  getPrio P (Tok a) = Ret (xassoc 20005) ->
  getPrio P (Tok b) = Ret (xassoc 20005) ->
  getPrio P (Tok c) = Ret (xassoc 20005) ->
  getPrio P (Tok o1) = Ret p1 -> getPrio P (Tok o2) = Ret p2 ->
  (left p1 < 20005)%Z -> (right p1 < 20005)%Z -> (left p2 < 20005)%Z -> (right p2 < 20005)%Z ->
  ((left p1 < right p2)%Z ->
     Parser_process P [a; o1; b; o2; c]
     = Ret (Obj (binary o1 (Tok a) (binary o2 (Tok b) (Tok c)))))
  /\ ((left p1 > right p2)%Z ->
        Parser_process P [a; o1; b; o2; c]
        = Ret (Obj (binary o2 (binary o1 (Tok a) (Tok b)) (Tok c))))
  /\ (left p1 = right p2 ->
        Parser_process P [a; o1; b; o2; c]
        = Ret (Obj (ternary o1 o2 (Tok a) (Tok b) (Tok c)))).
Proof.
  intros Hfin Ha Hb Hc H1 H2 L1 R1 L2 R2.
  split; [|split]; intros Hcmp.
  - eapply parse_right_nested; eauto; cbn; lia.
  - eapply parse_left_nested; eauto; cbn; lia.
  - eapply parse_merged; eauto; cbn; lia.
Qed.

Lemma precedence_witness :
  Parser_process Teacup_parser
    [Token "number" "1" 0 1; Token "infix" "+" 2 3; Token "number" "2" 4 5;
     Token "infix" "*" 6 7; Token "number" "3" 8 9]
  = Ret (Obj (binary (Token "infix" "+" 2 3) (Tok (Token "number" "1" 0 1))
                (binary (Token "infix" "*" 6 7) (Tok (Token "number" "2" 4 5))
                   (Tok (Token "number" "3" 8 9))))).
Proof.
  refine (proj1 (precedence_decides_nesting Teacup_parser
                   (Token "number" "1" 0 1) (Token "infix" "+" 2 3) (Token "number" "2" 4 5)
                   (Token "infix" "*" 6 7) (Token "number" "3" 8 9)
                   (lassoc 505) (lassoc 605) _ _ _ _ _ _ _ _ _ _) _);
    vm_compute; reflexivity.
Defined.

(** *** Environments *)

Lemma lookup_chain_S n (st : store) (l : nat) k :
  lookup_chain (S n) st l k
  = match st !! l with
    | None => None
    | Some f =>
        match vars f !! k with
        | Some v => Some v
        | None =>
            match proto f with
            | Some p => lookup_chain n st p k
            | None => None
            end
        end
    end.
Proof. reflexivity. Qed.

Ltac chain_step st l k Hwf :=
  let f := fresh "f" in
  let Hf := fresh "Hf" in
  let p := fresh "p" in
  let Hp := fresh "Hp" in
  destruct (st !! l) as [f|] eqn:Hf; [|reflexivity];
  destruct (vars f !! k); [reflexivity|];
  destruct (proto f) as [p|] eqn:Hp; [|reflexivity];
  specialize (Hwf l f p Hf Hp).

Lemma lookup_chain_fuel st :
  wf_store st ->
  forall n m l k, l < n -> l < m -> lookup_chain n st l k = lookup_chain m st l k.
Proof.
  intros Hwf. induction n as [|n IH]; intros [|m] l k Hn Hm; try lia.
  rewrite !lookup_chain_S. chain_step st l k Hwf. apply IH; lia.
Qed.

Lemma lookup_chain_app st ext :
  wf_store st ->
  forall n l k, l < length st -> lookup_chain n (st ++ ext) l k = lookup_chain n st l k.
Proof.
  intros Hwf. induction n as [|n IH]; intros l k Hl; [reflexivity|].
  rewrite !lookup_chain_S, lookup_app_l by assumption.
  chain_step st l k Hwf. apply IH. lia.
Qed.

Lemma lookup_chain_alter st g c :
  wf_store st ->
  forall n l k, l < c -> lookup_chain n (alter g c st) l k = lookup_chain n st l k.
Proof.
  intros Hwf. induction n as [|n IH]; intros l k Hl; [reflexivity|].
  rewrite !lookup_chain_S, list_lookup_alter_ne by lia.
  chain_step st l k Hwf. apply IH. lia.
Qed.

Lemma env_get_own st l k v :
  l < length st -> env_get (bind_in k v l st) l k = Some v.
Proof.
  intros Hl. unfold env_get, bind_in. rewrite length_alter.
  destruct (length st) as [|n] eqn:Hn; [lia|]. rewrite lookup_chain_S.
  rewrite list_lookup_alter_eq.
  destruct (lookup_lt_is_Some_2 st l) as [f Hf]; [lia|]. rewrite Hf. cbn.
  now rewrite lookup_insert_eq.
Qed.

Lemma wf_store_create st p vs :
  wf_store st -> p < length st -> wf_store (st ++ [Frame (Some p) vs]).
Proof.
  intros Hwf Hp l f q Hl Hq.
  destruct (decide (l < length st)) as [Hlt|Hge].
  - rewrite lookup_app_l in Hl by assumption. eauto.
  - rewrite lookup_app_r in Hl by lia.
    destruct (l - length st) as [|d] eqn:Hd; cbn in Hl; [|destruct d; discriminate].
    injection Hl as <-. cbn in Hq. injection Hq as <-. lia.
Qed.

Lemma wf_store_bind st k v l : wf_store st -> wf_store (bind_in k v l st).
Proof.
  intros Hwf i f q Hi Hq. unfold bind_in in Hi.
  destruct (decide (i = l)) as [->|Hne].
  - rewrite list_lookup_alter_eq in Hi.
    apply fmap_Some in Hi as (f0 & Hf & ->). cbn in Hq. eauto.
  - rewrite list_lookup_alter_ne in Hi by congruence. eauto.
Qed.

(** X10: variableBinder and the leaf handlers use the same key: after
    binding a word, infix or prefix token to a value in an environment,
    evaluating that token in that environment returns the value; a prefix
    token is stored and looked up under 'prefix:' followed by its text. *)
Theorem binder_and_leaf_agree (tx : string) (s e n : nat) (l : loc) (v : value) (st : store) :
  l < length st ->
  (variableBinder (Some (Tok (Token "word" tx s e))) l v st = Ret (tt, bind_in tx v l st)
   /\ eval Teacup_interpreter (S n) (Tok (Token "word" tx s e)) (Some l) (bind_in tx v l st)
      = Ret (v, bind_in tx v l st))
  /\ (variableBinder (Some (Tok (Token "infix" tx s e))) l v st = Ret (tt, bind_in tx v l st)
      /\ eval Teacup_interpreter (S n) (Tok (Token "infix" tx s e)) (Some l) (bind_in tx v l st)
         = Ret (v, bind_in tx v l st))
  /\ (variableBinder (Some (Tok (Token "prefix" tx s e))) l v st
      = Ret (tt, bind_in ("prefix:" +:+ tx) v l st)
      /\ eval Teacup_interpreter (S n) (Tok (Token "prefix" tx s e)) (Some l)
           (bind_in ("prefix:" +:+ tx) v l st)
         = Ret (v, bind_in ("prefix:" +:+ tx) v l st)).
Proof.
  intros Hl.
  assert (H : forall k, resolve (Some l) k (bind_in k v l st) = Ret (v, bind_in k v l st)).
  { intros k. unfold resolve. fold (env_get (bind_in k v l st) l k).
    now rewrite env_get_own. }
  repeat split; try reflexivity.
  - change (eval Teacup_interpreter (S n) (Tok (Token "word" tx s e)) (Some l))
      with (resolve (Some l) tx). apply H.
  - change (eval Teacup_interpreter (S n) (Tok (Token "infix" tx s e)) (Some l))
      with (resolve (Some l) tx). apply H.
  - change (eval Teacup_interpreter (S n) (Tok (Token "prefix" tx s e)) (Some l))
      with (resolve (Some l) ("prefix:" +:+ tx)). apply H.
Qed.

Lemma binder_and_leaf_agree_witness :
  eval Teacup_interpreter 1 (Tok (Token "prefix" "~" 0 1)) (Some 0)
    (bind_in "prefix:~" (VNum 1) 0 initial_store)
  = Ret (VNum 1, bind_in "prefix:~" (VNum 1) 0 initial_store).
Proof.
  apply (proj2 (proj2 (proj2 (binder_and_leaf_agree "~" 0 1 0 0 (VNum 1) initial_store
                                 ltac:(cbn; lia))))).
Defined.

(** X11: An environment made by Object.create(env) sees every binding of
    env; a binding made in it shadows env's binding of the same name for
    the child only: every other name still resolves as in env, and env
    itself, like every older environment, resolves every name as before. *)
Theorem child_environment (st : store) (p : loc) (k : string) (v : value) :
  wf_store st -> p < length st ->
  env_get (st ++ [Frame (Some p) ∅]) (length st) k = env_get st p k
  /\ env_get (bind_in k v (length st) (st ++ [Frame (Some p) ∅])) (length st) k = Some v
  /\ (forall k', k' <> k ->
        env_get (bind_in k v (length st) (st ++ [Frame (Some p) ∅])) (length st) k'
        = env_get st p k')
  /\ (forall q k', q < length st ->
        env_get (bind_in k v (length st) (st ++ [Frame (Some p) ∅])) q k' = env_get st q k')
  /\ wf_store (bind_in k v (length st) (st ++ [Frame (Some p) ∅])).
Proof.
  intros Hwf Hp.
  assert (Hwf' : wf_store (st ++ [Frame (Some p) ∅])) by now apply wf_store_create.
  assert (Hchild : forall vs k',
            env_get (st ++ [Frame (Some p) vs]) (length st) k'
            = match vs !! k' with Some x => Some x | None => env_get st p k' end).
  { intros vs k'. unfold env_get. rewrite length_app. cbn [length].
    replace (length st + 1) with (S (length st)) by lia. rewrite lookup_chain_S.
    rewrite lookup_app_r by lia. rewrite Nat.sub_diag. cbn.
    destruct (vs !! k'); [reflexivity|].
    rewrite lookup_chain_app by assumption. reflexivity. }
  assert (Hbind : bind_in k v (length st) (st ++ [Frame (Some p) ∅])
                  = st ++ [Frame (Some p) {[ k := v ]}]).
  { unfold bind_in. rewrite alter_app_r_alt by lia. rewrite Nat.sub_diag. cbn.
    now rewrite insert_empty. }
  repeat split.
  - rewrite Hchild. now rewrite lookup_empty.
  - apply env_get_own. rewrite length_app. cbn. lia.
  - intros k' Hne. rewrite Hbind, Hchild. now rewrite lookup_singleton_ne by congruence.
  - intros q k' Hq. rewrite Hbind. unfold env_get. rewrite length_app. cbn [length].
    rewrite lookup_chain_app by assumption.
    apply lookup_chain_fuel; [assumption|lia..].
  - now apply wf_store_bind.
Qed.

Lemma child_environment_witness :
  env_get (initial_store ++ [Frame (Some 0) ∅]) 1 "+" = env_get initial_store 0 "+"
  /\ env_get (bind_in "+" VNull 1 (initial_store ++ [Frame (Some 0) ∅])) 0 "+"
     = Some (VBuiltin BAdd).
Proof.
  assert (Hwf : wf_store initial_store).
  { intros [|l] f p Hl Hp; [|destruct l; discriminate]. injection Hl as <-. discriminate. }
  assert (Hp : 0 < length initial_store) by (cbn; lia).
  destruct (child_environment initial_store 0 "+" VNull Hwf Hp) as (H1 & _ & _ & H4 & _).
  split; [exact H1|]. refine (eq_trans (H4 0 "+" Hp) _). vm_compute. reflexivity.
Defined.

Lemma foldl_insert_lookup (l : list (string * value)) : forall (m : gmap string value) k,
  foldl (fun b kv => <[fst kv := snd kv]> b) m l !! k
  = match (list_to_map (rev l) : gmap string value) !! k with
    | Some v => Some v
    | None => m !! k
    end.
Proof.
  induction l as [|[k1 v1] l IH]; intros m k; cbn [foldl rev].
  - cbn. now rewrite lookup_empty.
  - rewrite IH. rewrite list_to_map_app. rewrite lookup_union.
    destruct (list_to_map (rev l) !! k) as [x|] eqn:E; cbn [fst snd list_to_map foldr uncurry].
    + rewrite union_Some_l. reflexivity.
    + rewrite (left_id None _).
      destruct (decide (k1 = k)) as [->|Hne].
      * rewrite !lookup_insert_eq. reflexivity.
      * rewrite !lookup_insert_ne by assumption. rewrite lookup_empty. reflexivity.
Qed.

(** X12: makeEnvironment builds an object without prototype in which a name
    bound more than once, in one group or in several, has the value of its
    last binding. *)
Theorem makeEnvironment_last_wins (groups : list (list (string * value))) (k : string) :
  vars (makeEnvironment groups) !! k
  = (list_to_map (rev (concat groups)) : gmap string value) !! k
  /\ proto (makeEnvironment groups) = None.
Proof.
  split; [|reflexivity]. unfold makeEnvironment. cbn [vars].
  assert (H : forall gs (m : gmap string value),
            foldl (fun base bindings =>
                     foldl (fun b kv => <[fst kv := snd kv]> b) base bindings) m gs
            = foldl (fun b kv => <[fst kv := snd kv]> b) m (concat gs)).
  { induction gs as [|g gs IH]; intros m; cbn; [reflexivity|].
    now rewrite IH, foldl_app. }
  rewrite H, foldl_insert_lookup. rewrite lookup_empty.
  destruct (list_to_map (rev (concat groups)) !! k); reflexivity.
Qed.

(** *** Functions *)

Lemma variableBinder_bindable d l v st :
  bindable d -> variableBinder (Some d) l v st = Ret (tt, bind_in (binder_key d) v l st).
Proof.
  intros H. unfold variableBinder, binder_key. cbn [lift need mbind].
  destruct H as [H|[H|H]]; rewrite H; reflexivity.
Qed.

Lemma variableBinder_invalid d l v st :
  ~ bindable d ->
  variableBinder (Some d) l v st = Throw (SyntaxError "Invalid variable declaration.").
Proof.
  intros H. unfold variableBinder, bindable in *. cbn [lift need mbind].
  destruct (String.eqb_spec (node_type d) "word"); [tauto|].
  destruct (String.eqb_spec (node_type d) "infix"); [tauto|].
  destruct (String.eqb_spec (node_type d) "prefix"); [tauto|].
  reflexivity.
Qed.

Lemma arg_shift args n :
  map (arg args) (seq 1 n) = map (arg (tl args)) (seq 0 n).
Proof.
  rewrite <- seq_shift, map_map. apply map_ext. intros i.
  destruct args; reflexivity.
Qed.

Lemma bind_params_frame pr decls : forall args (m : gmap string value) (st : store),
  Forall bindable decls ->
  bind_params decls args (length st) (st ++ [Frame pr m])
  = Ret (tt, st ++ [Frame pr (foldl (fun b kv => <[fst kv := snd kv]> b) m
                               (zip (map binder_key decls)
                                    (map (arg args) (seq 0 (length decls)))))]).
Proof.
  induction decls as [|d decls IH]; intros args m st H; [reflexivity|].
  inversion H as [|? ? Hd Hds]; subst.
  cbn [bind_params]. unfold mbind at 1. rewrite variableBinder_bindable by assumption.
  unfold bind_in. rewrite alter_app_r_alt by lia. rewrite Nat.sub_diag.
  cbn [alter list_alter proto vars].
  rewrite IH by assumption.
  cbn [length seq map zip zip_with foldl fst snd]. rewrite arg_shift.
  destruct args; reflexivity.
Qed.

Lemma foldl_insert_map (l : list (string * value)) :
  foldl (fun b kv => <[fst kv := snd kv]> b) (∅ : gmap string value) l
  = list_to_map (rev l).
Proof.
  apply map_eq. intros k. rewrite foldl_insert_lookup, lookup_empty.
  destruct (list_to_map (rev l) !! k); reflexivity.
Qed.

(** X13: Calling a function built by buildFunction creates one new
    environment whose parent is the environment of the definition and binds
    the parameters by position: the i-th parameter gets the i-th argument,
    undefined when there are fewer arguments, surplus arguments are
    dropped, and of two parameters with the same name the later one wins;
    the body is evaluated there. *)
Theorem call_binds_parameters (I : Interpreter) (n : nat) (decls : list node)
    (body : option node) (p : loc) (args : list value) (st : store) :
  Forall bindable decls ->
  call I (S n) (VClosure decls body (Some p)) args st
  = eval_opt (self I n) body (Some (length st))
      (st ++ [Frame (Some p) (parameters decls args)]).
Proof.
  intros H. cbn [call apply_function]. unfold mbind at 1. cbn [Object_create].
  unfold mbind at 1. rewrite bind_params_frame by assumption.
  rewrite foldl_insert_map. reflexivity.
Qed.

Lemma call_binds_parameters_witness :
  call Teacup_interpreter 2
    (VClosure [Tok (Token "word" "x" 0 1); Tok (Token "word" "y" 3 4)]
       (Some (Tok (Token "word" "y" 9 10))) (Some 0)) [VNum 1] initial_store
  = Ret (VUndefined,
         initial_store ++ [Frame (Some 0) {[ "x" := VNum 1; "y" := VUndefined ]}]).
Proof.
  rewrite call_binds_parameters.
  - vm_compute. reflexivity.
  - repeat constructor.
Defined.

Lemma bind_params_invalid good bad rest : forall args l st,
  Forall bindable good -> ~ bindable bad ->
  bind_params (good ++ bad :: rest) args l st
  = Throw (SyntaxError "Invalid variable declaration.").
Proof.
  induction good as [|d good IH]; intros args l st Hg Hb.
  - cbn [app bind_params]. unfold mbind. now rewrite variableBinder_invalid.
  - inversion Hg; subst. cbn [app bind_params]. unfold mbind at 1.
    rewrite variableBinder_bindable by assumption. now apply IH.
Qed.

(** X14: A parameter that is not a word, infix or prefix token is rejected
    only when the function is called: the call raises SyntaxError 'Invalid
    variable declaration.' whatever the arguments, before the body is
    evaluated. *)
Theorem call_rejects_parameter (I : Interpreter) (n : nat) (good rest : list node)
    (bad : node) (body : option node) (p : loc) (args : list value) (st : store) :
  Forall bindable good -> ~ bindable bad ->
  call I (S n) (VClosure (good ++ bad :: rest) body (Some p)) args st
  = Throw (SyntaxError "Invalid variable declaration.").
Proof.
  intros Hg Hb. cbn [call apply_function].
  unfold mbind at 1. cbn [Object_create]. unfold mbind at 1.
  now rewrite bind_params_invalid.
Qed.

Lemma call_rejects_parameter_witness :
  call Teacup_interpreter 1
    (VClosure [Tok (Token "word" "x" 0 1); Tok (Token "number" "1" 3 4)]
       (Some (Tok (Token "word" "x" 9 10))) (Some 0)) [VNum 1; VNum 2] initial_store
  = Throw (SyntaxError "Invalid variable declaration.").
Proof.
  apply (call_rejects_parameter Teacup_interpreter 0 [Tok (Token "word" "x" 0 1)] []).
  - repeat constructor.
  - unfold bindable. cbn. intros [H|[H|H]]; discriminate.
Defined.

(** *** Sequences *)

Lemma sequence_loop_last this env stmts x : forall last st,
  sequence_loop this env last (stmts ++ [x]) st
  = (let! _ := sequence_loop this env last stmts in this_eval this x env) st.
Proof.
  induction stmts as [|y stmts IH]; intros last st.
  - cbn [app sequence_loop].
    unfold mbind, mret. destruct (this_eval this x env st) as [[v st']| | |]; reflexivity.
  - cbn [app sequence_loop].
    unfold mbind. destruct (this_eval this y env st) as [[v st']| | |]; try reflexivity.
    rewrite IH. reflexivity.
Qed.

Lemma eval_sequence_node n ty args ops s e env :
  test rx_sequence ty = true ->
  eval Teacup_interpreter (S n) (Ast ty args ops s e) env
  = sequence_loop (self Teacup_interpreter n) env VUndefined args.
Proof.
  intros H. cbn [eval]. unfold Interpreter_eval, Teacup_interpreter, newInterpreter.
  cbn [handlers Teacup_handlers rev app dispatch].
  unfold extractArgs at 1. cbn [key h_for_when guard_matches node_type].
  destruct (String.eqb_spec "_ for E in E when E do E end _" ty) as [<-|_];
    [vm_compute in H; discriminate|].
  unfold extractArgs at 1. cbn [key h_for guard_matches node_type].
  destruct (String.eqb_spec "_ for E in E do E end _" ty) as [<-|_];
    [vm_compute in H; discriminate|].
  unfold extractArgs at 1. cbn [key h_let guard_matches node_type].
  destruct (String.eqb_spec "_ let E in E end _" ty) as [<-|_];
    [vm_compute in H; discriminate|].
  unfold extractArgs at 1. cbn [key h_lambda guard_matches node_type].
  destruct (String.eqb_spec "E -> E" ty) as [<-|_];
    [vm_compute in H; discriminate|].
  unfold extractArgs at 1. cbn [key h_sequence guard_matches node_type].
  rewrite H. reflexivity.
Qed.

(** X15: A node whose signature contains a comma, a semicolon or a newline
    anywhere is evaluated as a sequence, before any handler registered
    earlier is consulted: its arguments are evaluated in order in the same
    environment and the value is that of the last one. *)
Theorem sequence_is_last_statement (n : nat) (ty : string) (stmts : list node) (x : node)
    (ops : list node) (s e : nat) (env : option loc) (st : store) :
  test rx_sequence ty = true ->
  eval Teacup_interpreter (S n) (Ast ty (stmts ++ [x]) ops s e) env st
  = (let! _ := sequence_loop (self Teacup_interpreter n) env VUndefined stmts in
     eval Teacup_interpreter n x env) st.
Proof.
  intros H. rewrite eval_sequence_node by assumption. apply sequence_loop_last.
Qed.

Lemma sequence_is_last_statement_witness :
  eval Teacup_interpreter 2
    (Ast "E ; E , E" [Tok (Token "number" "1" 0 1); Tok (Token "number" "2" 3 4);
                      Tok (Token "number" "3" 6 7)] [] 0 7) (Some 0) initial_store
  = Ret (VNum 3, initial_store).
Proof.
  rewrite (sequence_is_last_statement 1 "E ; E , E"
             [Tok (Token "number" "1" 0 1); Tok (Token "number" "2" 3 4)]
             (Tok (Token "number" "3" 6 7))).
  - vm_compute. reflexivity.
  - vm_compute. reflexivity.
Defined.

(** *** Declarations of a [let] *)

(** X16: A let whose first declaration is not an assignment raises Error
    'Expected 'E = E', got '<type>'' with the type of that declaration,
    before any environment is created or any expression evaluated. *)
Theorem let_expects_assignments (n : nat) (rawDecls d : node) (ds rest ops : list node)
    (s e : nat) (env : option loc) (st : store) :
  getList rawDecls = d :: ds -> node_type d <> "E = E" ->
  eval Teacup_interpreter (S n) (Ast "_ let E in E end _" (rawDecls :: rest) ops s e) env st
  = Throw (Error ("Expected 'E = E', got '" +:+ node_type d +:+ "'")).
Proof.
  intros Hl Hd. rewrite eval_let_node. cbn [func h_let lookup list_lookup].
  unfold mbind at 1. cbn [lift need]. rewrite Hl. cbn [map_outcome].
  unfold normalizeAssignment, extractArgs_strict, extractArgs. cbn [guard_matches].
  destruct (String.eqb_spec "E = E" (node_type d)) as [Heq|_]; [congruence|].
  reflexivity.
Qed.

Lemma let_expects_assignments_witness :
  eval Teacup_interpreter 1
    (Ast "_ let E in E end _" [Tok (Token "word" "x" 4 5); Tok (Token "word" "x" 9 10)]
       [] 0 14) (Some 0) initial_store
  = Throw (Error "Expected 'E = E', got 'word'").
Proof.
  apply (let_expects_assignments 0 (Tok (Token "word" "x" 4 5)) (Tok (Token "word" "x" 4 5)) []).
  - vm_compute. reflexivity.
  - discriminate.
Defined.

(** *** Operators *)

Lemma all_chars_impl (p q : ascii -> bool) s :
  (forall c, p c = true -> q c = true) -> all_chars p s = true -> all_chars q s = true.
Proof.
  intros Hpq. induction s as [|c s IH]; cbn; [reflexivity|].
  intros H. apply andb_true_iff in H as [Hc Hs]. rewrite (Hpq c Hc). now apply IH.
Qed.

Lemma operator_char_no_separator c :
  mem_char c operator_chars = true ->
  negb (mem_char c (String "," (String ";" (one newline)))) = true.
Proof. destruct c as [[] [] [] [] [] [] [] []]; vm_compute; congruence. Qed.

Lemma operator_char_no_letter c :
  mem_char c operator_chars = true ->
  Ascii.eqb " " c = false /\ Ascii.eqb "a" c = false /\ Ascii.eqb "o" c = false
  /\ Ascii.eqb "n" c = false /\ Ascii.eqb "i" c = false.
Proof. destruct c as [[] [] [] [] [] [] [] []]; vm_compute; intuition congruence. Qed.

Lemma search_Bol_later r : forall s c, search_from (Cat Bol r) (Some c) s = false.
Proof. induction s as [|d s IH]; intros c; cbn; [reflexivity|apply IH]. Qed.

Lemma search_anchored r s :
  test (Cat Bol r) s = match match_here (Cat Bol r) None s with Some _ => true | None => false end.
Proof.
  unfold test. destruct s as [|c s]; cbn [search_from];
    destruct (match_here (Cat Bol r) None _); try reflexivity.
  apply search_Bol_later.
Qed.

Lemma operator_middle lhs op k :
  String.length lhs = 1 -> operator_signature lhs op = k ->
  op = substring 2 (String.length k - 4) k.
Proof.
  intros Hl <-. destruct lhs as [|a [|b lhs]]; try discriminate. clear Hl.
  unfold operator_signature.
  replace (String.length (String a "" +:+ " " +:+ op +:+ " E") - 4) with (String.length op)
    by (cbn [String.append String.length]; rewrite string_length_app; cbn; lia).
  symmetry. exact (substring_here (String a " ") op " E").
Qed.

Section Operator.
Variables (lhs op : string).
Hypothesis Hlhs : lhs = "E" \/ lhs = "_".
Hypothesis Hop : all_chars (fun c => mem_char c operator_chars) op = true.

Lemma operator_not_exact k :
  (all_chars (fun c => mem_char c operator_chars) (substring 2 (String.length k - 4) k)
   && (negb (String.eqb (substring 0 1 k) "E")
       || negb (String.eqb k "E . E" || String.eqb k "E -> E"))) = false ->
  lhs <> "E" \/ (op <> "." /\ op <> "->") ->
  String.eqb k (operator_signature lhs op) = false.
Proof using Hlhs Hop.
  intros Hk Hex. apply String.eqb_neq. intros Heq. symmetry in Heq.
  pose proof (operator_middle lhs op k) as Hm.
  assert (Hl : String.length lhs = 1) by (destruct Hlhs; subst; reflexivity).
  specialize (Hm Hl Heq). rewrite <- Hm, Hop in Hk. cbn [andb] in Hk.
  apply orb_false_iff in Hk as [H1 H2].
  apply negb_false_iff in H1, H2. apply String.eqb_eq in H1.
  assert (lhs = "E").
  { rewrite <- Heq in H1. destruct Hlhs; subst lhs; [reflexivity|discriminate]. }
  subst lhs. destruct Hex as [?|[Hd Ha]]; [congruence|].
  apply orb_true_iff in H2 as [H2|H2]; apply String.eqb_eq in H2; subst k;
    cbn in Hm; congruence.
Qed.

Lemma operator_no_separator :
  test rx_sequence (operator_signature lhs op) = false.
Proof using Hlhs Hop.
  unfold test, rx_sequence, OneOf, operator_signature. apply search_Class_none.
  rewrite !all_chars_app.
  rewrite (all_chars_impl _ _ op operator_char_no_separator Hop).
  destruct Hlhs; subst; reflexivity.
Qed.

Lemma operator_not_variable :
  test rx_variable (operator_signature lhs op) = false.
Proof using Hlhs.
  unfold rx_variable. cbn [Cats]. rewrite search_anchored.
  destruct Hlhs; subst; reflexivity.
Qed.

Lemma operator_not_if :
  test rx_if (operator_signature lhs op) = false.
Proof using Hlhs Hop.
  unfold rx_if. cbn [Cats]. rewrite search_anchored.
  destruct Hlhs; subst; [reflexivity|].
  destruct op as [|c op']; [reflexivity|].
  cbn [all_chars] in Hop. apply andb_true_iff in Hop as [Hc _].
  destruct (operator_char_no_letter c Hc) as (_ & _ & _ & _ & Hi).
  unfold operator_signature, match_here. cbn [String.append Lit rmatch Chr].
  rewrite !Ascii.eqb_refl, Hi. reflexivity.
Qed.

End Operator.

Section OperatorPattern.
Variables (lhs op : string).
Hypothesis Hlhs : lhs = "E" \/ lhs = "_".
Hypothesis Hop : all_chars (fun c => mem_char c operator_chars) op = true.

Lemma tail_refuses_operator_char prev c s :
  mem_char c operator_chars = true -> operand_tail prev (String c s) = None.
Proof using Type.
  intros Hc. destruct (operator_char_no_letter c Hc) as (Hs & _).
  unfold operand_tail. cbn [Lit rmatch Chr]. now rewrite Hs.
Qed.

Lemma star_outside o : forall n prev,
  all_chars (fun c => mem_char c operator_chars) o = true ->
  all_chars applicable o = false ->
  star_iter (rmatch (Class applicable)) operand_tail n prev (o +:+ " E") = None.
Proof using Type.
  induction o as [|c o IH]; intros n prev H1 H2; [discriminate|].
  cbn [all_chars] in H1. apply andb_true_iff in H1 as [Hc H1].
  cbn [String.append]. destruct n as [|n]; cbn [star_iter]; [now apply tail_refuses_operator_char|].
  cbn [rmatch]. destruct (applicable c) eqn:Hg.
  - cbn [all_chars] in H2. rewrite Hg in H2. cbn [andb] in H2.
    rewrite IH by assumption. destruct (_ <? _)%nat; now apply tail_refuses_operator_char.
  - now apply tail_refuses_operator_char.
Qed.

Lemma star_inside o : forall n prev,
  all_chars applicable o = true -> String.length o <= n ->
  star_iter (rmatch (Class applicable)) operand_tail n prev (o +:+ " E") = Some "".
Proof using Type.
  induction o as [|c o IH]; intros n prev H Hn.
  - cbn [String.append]. destruct n; reflexivity.
  - cbn [all_chars] in H. apply andb_true_iff in H as [Hc H].
    destruct n as [|n]; [cbn in Hn; lia|].
    cbn [String.append star_iter rmatch]. rewrite Hc.
    replace (String.length (o +:+ " E") <? String.length (String c (o +:+ " E")))%nat
      with true by (symmetry; apply Nat.ltb_lt; cbn; lia).
    rewrite IH; [reflexivity|assumption|cbn in Hn; lia].
Qed.

Lemma operator_alternatives prev c o :
  mem_char c operator_chars = true ->
  rmatch (Alts [Plus (OneOf applicable_chars); Lit "and"; Lit "or"; Lit "not"]) operand_tail prev
    (String c o +:+ " E")
  = rmatch (Plus (Class applicable)) operand_tail prev (String c o +:+ " E").
Proof using Type.
  intros Hc. destruct (operator_char_no_letter c Hc) as (_ & Ha & Ho & Hn & _).
  cbn [Alts]. cbn [rmatch].
  change (OneOf applicable_chars) with (Class applicable).
  destruct (rmatch (Plus (Class applicable)) operand_tail prev (String c o +:+ " E")); [reflexivity|].
  cbn [String.append Lit rmatch Chr]. now rewrite Ha, Ho, Hn.
Qed.

Lemma operator_matches :
  test rx_operator (operator_signature lhs op) = all_chars applicable op && negb (String.eqb op "").
Proof using Hlhs Hop.
  unfold rx_operator. cbn [Cats]. rewrite search_anchored.
  destruct op as [|c o]; [destruct Hlhs; subst; reflexivity|].
  assert (Hc : mem_char c operator_chars = true).
  { cbn [all_chars] in Hop. now apply andb_true_iff in Hop as [? _]. }
  assert (H : match_here
                (Cat Bol (Cat (OneOf "E_") (Cat (Chr " ")
                   (Cat (Alts [Plus (OneOf applicable_chars); Lit "and"; Lit "or"; Lit "not"])
                      (Cat (Lit " E") Eol))))) None (operator_signature lhs (String c o))
              = rmatch (Plus (Class applicable)) operand_tail (Some " "%char) (String c o +:+ " E")).
  { unfold match_here, operator_signature.
    destruct Hlhs; subst lhs; cbn [String.append rmatch OneOf Chr mem_char];
      rewrite ?Ascii.eqb_refl; cbn [orb]; apply (operator_alternatives _ c o Hc). }
  change (match_here _ None (operator_signature lhs (String c o)))
    with (match_here
            (Cat Bol (Cat (OneOf "E_") (Cat (Chr " ")
               (Cat (Alts [Plus (OneOf applicable_chars); Lit "and"; Lit "or"; Lit "not"])
                  (Cat (Lit " E") Eol))))) None (operator_signature lhs (String c o))).
  rewrite H. cbn [String.eqb negb]. rewrite andb_true_r.
  unfold Plus. cbn [String.append]. cbn [rmatch]. cbn [all_chars].
  destruct (applicable c) eqn:Hg; cbn [andb]; [|reflexivity].
  cbn [all_chars] in Hop. apply andb_true_iff in Hop as [_ Ho].
  destruct (all_chars applicable o) eqn:Ha.
  - rewrite star_inside; [reflexivity|assumption|].
    rewrite string_length_app. lia.
  - rewrite star_outside by assumption. reflexivity.
Qed.

End OperatorPattern.

(** X17: An operator node E op E or _ op E whose operator is made of the
    lexer's operator characters is applied as a call exactly when all its
    characters are in the handler's class [!@#$%^&*+/?<>=.-] (E . E and E
    -> E apart, which have handlers of their own); an operator with |, : or
    ~ in it is lexed and parsed, but evaluating it raises SyntaxError
    'Unknown node type: ...'. *)
Theorem operator_dispatch (n : nat) (lhs op : string) (args ops : list node) (s e : nat)
    (env : option loc) (st : store) :
  lhs = "E" \/ lhs = "_" ->
  all_chars (fun c => mem_char c operator_chars) op = true -> op <> "" ->
  lhs <> "E" \/ (op <> "." /\ op <> "->") ->
  eval Teacup_interpreter (S n) (Ast (operator_signature lhs op) args ops s e) env st
  = if all_chars applicable op
    then runCall (self Teacup_interpreter n) (Ast (operator_signature lhs op) args ops s e) env st
    else Throw (SyntaxError ("Unknown node type: " +:+ operator_signature lhs op)).
Proof.
  intros Hlhs Hop Hne Hex. cbn [eval]. unfold Interpreter_eval.
  change (handlers Teacup_interpreter) with
    ([h_for_when; h_for; h_let; h_lambda; h_sequence; h_if; h_dot; h_index; h_empty_list;
      h_list; h_call0; h_call; h_begin; h_paren]
     ++ h_operator :: [h_string; h_number; h_prefix; h_variable]).
  assert (Hm := operator_matches lhs op Hlhs Hop).
  replace (negb (String.eqb op "")) with true in Hm
    by (symmetry; apply negb_true_iff, String.eqb_neq; exact Hne).
  rewrite andb_true_r in Hm.
  set (nd := Ast (operator_signature lhs op) args ops s e).
  assert (Hsplit : forall hs1 h hs2,
            Forall (fun h => extractArgs (key h) nd = None) hs1 ->
            dispatch (hs1 ++ h :: hs2) (self Teacup_interpreter n) nd env
            = dispatch (h :: hs2) (self Teacup_interpreter n) nd env).
  { intros hs1 h hs2 H. induction H as [|h1 hs1 H1 _ IH]; [reflexivity|].
    cbn [app dispatch]. now rewrite H1. }
  assert (Hnone : forall h,
            match key h with
            | Exact k =>
                all_chars (fun c => mem_char c operator_chars)
                  (substring 2 (String.length k - 4) k)
                && (negb (String.eqb (substring 0 1 k) "E")
                    || negb (String.eqb k "E . E" || String.eqb k "E -> E")) = false
            | Pattern r => r = rx_sequence \/ r = rx_if \/ r = rx_variable
            end -> extractArgs (key h) nd = None).
  { intros h Hh. unfold extractArgs. cbn [nd node_type].
    destruct (key h) as [k|r]; cbn [guard_matches].
    - now rewrite (operator_not_exact lhs op Hlhs Hop k Hh Hex).
    - destruct Hh as [->|[->| ->]].
      + now rewrite operator_no_separator.
      + now rewrite operator_not_if.
      + now rewrite operator_not_variable. }
  rewrite Hsplit.
  2:{ repeat (constructor; [apply Hnone; first [reflexivity | cbn; tauto]|]). constructor. }
  cbn [dispatch]. unfold extractArgs at 1. cbn [key h_operator guard_matches nd node_type].
  rewrite Hm. destruct (all_chars applicable op); [reflexivity|].
  repeat (rewrite Hnone by first [reflexivity | cbn; tauto]). reflexivity.
Qed.

Lemma operator_dispatch_witness :
  eval Teacup_interpreter 1
    (Ast "E |> E" [Tok (Token "number" "1" 0 1); Tok (Token "word" "f" 5 6)]
       [Tok (Token "infix" "|>" 2 4)] 0 6) (Some 0) initial_store
  = Throw (SyntaxError "Unknown node type: E |> E").
Proof.
  apply (operator_dispatch 0 "E" "|>").
  - now left.
  - reflexivity.
  - discriminate.
  - right. split; discriminate.
Defined.

(** *** Evaluation and the environments that exist *)










Section Keeps.
Variables (l : nat) (this : interp).
Hypothesis Hthis : interp_keeps l this.














End Keeps.




(** *** String literals *)

Lemma string_body_matches s : forall n prev,
  all_chars no_quote s = true -> String.length s <= n ->
  star_iter (rmatch (Or (NoneOf (one dquote)) (Cat (Chr "\") Dot)))
    (rmatch (Chr dquote) (fun _ s' => Some s')) n prev (s +:+ one dquote) = Some "".
Proof.
  induction s as [|c s IH]; intros n prev H Hn.
  - destruct n; reflexivity.
  - cbn [all_chars] in H. apply andb_true_iff in H as [Hc H].
    destruct n as [|n]; [cbn in Hn; lia|].
    cbn [String.append star_iter rmatch NoneOf]. unfold no_quote in Hc. rewrite Hc.
    replace (String.length (s +:+ one dquote) <? String.length (String c (s +:+ one dquote)))%nat
      with true by (symmetry; apply Nat.ltb_lt; cbn; lia).
    rewrite IH; [reflexivity|assumption|cbn in Hn; lia].
Qed.

Lemma string_rule_first s :
  all_chars no_quote s = true ->
  first_group (re Teacup_lexer) 0 None (quoted s) = Some (6, "").
Proof.
  intros H. unfold quoted.
  change (re Teacup_lexer) with (map snd Teacup_tokenDefinitions).
  unfold Teacup_tokenDefinitions. cbn [map snd first_group].
  replace (match_here _ None (String dquote (s +:+ one dquote))) with (@None string)
    by reflexivity.
  replace (match_here _ None (String dquote (s +:+ one dquote))) with (@None string)
    by reflexivity.
  replace (match_here _ None (String dquote (s +:+ one dquote))) with (@None string)
    by reflexivity.
  replace (match_here _ None (String dquote (s +:+ one dquote))) with (@None string)
    by reflexivity.
  replace (match_here _ None (String dquote (s +:+ one dquote))) with (@None string)
    by reflexivity.
  replace (match_here _ None (String dquote (s +:+ one dquote))) with (@None string)
    by reflexivity.
  unfold match_here. cbn [rmatch Chr]. rewrite Ascii.eqb_refl.
  rewrite string_body_matches; [reflexivity|assumption|].
  rewrite string_length_app. lia.
Qed.

Lemma split_from_skip rs s : forall prev gap,
  split_from rs prev (String.length s) gap s = [Some gap].
Proof. induction s as [|c s IH]; intros prev gap; [reflexivity|]. cbn. apply IH. Qed.

Lemma substring_all s : substring 0 (String.length s) s = s.
Proof. induction s as [|c s IH]; cbn; [reflexivity|]. now rewrite IH. Qed.

Lemma lex_string_literal s :
  all_chars no_quote s = true ->
  Lexer_process Teacup_lexer (quoted s)
  = [Token "string" (quoted s) 0 (String.length (quoted s))].
Proof.
  intros H. unfold Lexer_process, split.
  assert (Hs : split_from (re Teacup_lexer) None 0 "" (quoted s)
               = Some "" :: captures 8 6 (quoted s) ++ [Some ""]).
  { unfold quoted at 1. cbn [split_from]. fold (quoted s).
    rewrite (string_rule_first s H).
    cbn [String.length Nat.sub Nat.eqb]. unfold quoted at 1 2 3.
    cbn [String.length Nat.sub Nat.eqb substring].
    rewrite substring_all.
    replace (String.length (quoted s) - 0 - 1) with (String.length (s +:+ one dquote))
      by (unfold quoted; cbn [String.length]; lia).
    rewrite split_from_skip. reflexivity. }
  rewrite Hs. cbn [captures seq map Nat.eqb app].
  cbn [map_pieces types Teacup_lexer newLexer]. cbn. reflexivity.
Qed.

Lemma slice_quoted s : substring 1 (String.length (quoted s) - 2) (quoted s) = s.
Proof.
  unfold quoted.
  replace (String.length (String dquote (s +:+ one dquote)) - 2) with (String.length s)
    by (cbn [String.length]; rewrite string_length_app; cbn [String.length one]; lia).
  cbn [substring]. exact (substring_here "" s (one dquote)).
Qed.

(** X19: A program that is one string literal, any text without a double
    quote between two double quotes, evaluates to exactly that text:
    backslashes, newlines and # inside it are kept as they are. *)
Theorem string_literal_value (n : nat) (s : string) :
  all_chars no_quote s = true -> teacup (S n) (quoted s) = Ret (VStr s).
Proof.
  intros H. unfold teacup. rewrite (lex_string_literal s H).
  change (tagPrefixOperators [Token "string" (quoted s) 0 (String.length (quoted s))])
    with [Token "string" (quoted s) 0 (String.length (quoted s))].
  change (Parser_process Teacup_parser [Token "string" (quoted s) 0 (String.length (quoted s))])
    with (Ret (A := slot) (Obj (Tok (Token "string" (quoted s) 0 (String.length (quoted s)))))).
  cbn [obind Interpreter_process].
  change (eval Teacup_interpreter (S n)
            (Tok (Token "string" (quoted s) 0 (String.length (quoted s))))
            (env Teacup_interpreter) initial_store)
    with (Ret (A := value * store)
            (VStr (substring 1 (String.length (quoted s) - 2) (quoted s)), initial_store)).
  cbn [obind fst]. now rewrite slice_quoted.
Qed.

Lemma string_literal_value_witness :
  teacup 1 (quoted "a \ b, # not a comment") = Ret (VStr "a \ b, # not a comment").
Proof. apply string_literal_value. reflexivity. Defined.

(** *** Identifiers *)

Lemma word_char_classes c :
  is_word c = true ->
  mem_char c "([{" = false /\ mem_char c ")]}" = false
  /\ mem_char c (String "," (String ";" (one newline))) = false
  /\ mem_char c operator_chars = false.
Proof. destruct c as [[] [] [] [] [] [] [] []]; vm_compute; intuition congruence. Qed.

Lemma reserved_word_refused kw : forall w prev,
  all_chars is_word w = true -> (kw <> "" \/ is_word_opt prev = true) -> w <> kw ->
  rmatch (Lit kw) (rmatch WordBoundary (fun _ s' => Some s')) prev w = None.
Proof.
  induction kw as [|a kw IH]; intros w prev Hw Hp Hne.
  - destruct Hp as [Hp|Hp]; [congruence|]. destruct w as [|c w]; [congruence|].
    cbn [all_chars] in Hw. apply andb_true_iff in Hw as [Hc _].
    cbn [Lit rmatch head_char is_word_opt]. now rewrite Hp, Hc.
  - destruct w as [|c w]; [reflexivity|].
    cbn [all_chars] in Hw. apply andb_true_iff in Hw as [Hc Hw].
    cbn [Lit rmatch Chr]. destruct (Ascii.eqb_spec a c) as [->|_]; [|reflexivity].
    apply IH; [assumption|right; exact Hc|congruence].
Qed.

Lemma alternatives_refused ws w :
  all_chars is_word w = true -> Forall (fun kw => w <> kw /\ kw <> "") ws ->
  rmatch (Alts (map Lit ws)) (rmatch WordBoundary (fun _ s' => Some s')) None w = None.
Proof.
  intros Hw Hws. induction Hws as [|kw ws [Hne Hk] Hws IH]; [destruct w; reflexivity|].
  assert (H1 : rmatch (Lit kw) (rmatch WordBoundary (fun _ s' => Some s')) None w = None)
    by (apply reserved_word_refused; auto).
  destruct ws as [|kw2 ws]; [exact H1|].
  change (Alts (map Lit (kw :: kw2 :: ws))) with (Or (Lit kw) (Alts (map Lit (kw2 :: ws)))).
  change (rmatch (Or ?a ?b) ?k None w)
    with (match rmatch a k None w with Some e => Some e | None => rmatch b k None w end).
  rewrite H1. exact IH.
Qed.

Lemma keywords_refused ws w :
  all_chars is_word w = true -> Forall (fun kw => w <> kw /\ kw <> "") ws ->
  match_here (keywords ws) None w = None.
Proof.
  intros Hw Hws. unfold match_here, keywords.
  change (rmatch (Cat WordBoundary (Cat (Alts (map Lit ws)) WordBoundary))
            (fun _ s' => Some s') None w)
    with (if xorb (is_word_opt None) (is_word_opt (head_char w))
          then rmatch (Alts (map Lit ws)) (rmatch WordBoundary (fun _ s' => Some s')) None w
          else None).
  rewrite alternatives_refused by assumption. now destruct (xorb _ _).
Qed.

Lemma word_body_matches w : forall n prev,
  all_chars is_word w = true -> String.length w <= n ->
  star_iter (rmatch (Class is_word)) (fun _ s' => Some s') n prev w = Some "".
Proof.
  induction w as [|c w IH]; intros n prev H Hn.
  - destruct n; reflexivity.
  - cbn [all_chars] in H. apply andb_true_iff in H as [Hc H].
    destruct n as [|n]; [cbn in Hn; lia|].
    cbn [star_iter rmatch]. rewrite Hc.
    replace (String.length w <? String.length (String c w))%nat
      with true by (symmetry; apply Nat.ltb_lt; cbn; lia).
    rewrite IH; [reflexivity|assumption|cbn in Hn; lia].
Qed.

Lemma not_reserved w kws :
  ~ In w reserved -> (forall kw, In kw kws -> In kw reserved) ->
  Forall (fun kw => w <> kw /\ kw <> "") kws.
Proof.
  intros Hw Hk. apply Forall_forall. intros kw Hin. apply list_elem_of_In in Hin.
  specialize (Hk kw Hin). split; [congruence|].
  cbn in Hk. intuition (subst; discriminate).
Qed.

Lemma word_rule_first w :
  identifier w -> first_group (re Teacup_lexer) 0 None w = Some (5, "").
Proof.
  intros (Hw & Hd & Hr). destruct w as [|c w']; [contradiction|].
  pose proof Hw as Hcw. cbn [all_chars] in Hcw. apply andb_true_iff in Hcw as [Hc Hw'].
  destruct (word_char_classes c Hc) as (Ho & Hcl & Hsep & Hop).
  change (re Teacup_lexer) with (map snd Teacup_tokenDefinitions).
  unfold Teacup_tokenDefinitions. cbn [map snd first_group].
  replace (match_here _ None (String c w')) with (@None string)
    by (unfold match_here, Plus; cbn [rmatch]; now rewrite Hd).
  assert (Hk : forall kws, (forall kw, In kw kws -> In kw reserved) ->
                           match_here (keywords kws) None (String c w') = None).
  { intros kws Hin. apply keywords_refused; [assumption|]. now apply not_reserved. }
  replace (match_here (Or (OneOf "([{") _) None (String c w')) with (@None string).
  2:{ unfold match_here in *. cbn [rmatch OneOf]. rewrite Ho. symmetry. apply Hk.
      cbn. tauto. }
  rewrite Hk by (cbn; tauto).
  replace (match_here (Or (OneOf ")]}") _) None (String c w')) with (@None string).
  2:{ unfold match_here in *. cbn [rmatch OneOf]. rewrite Hcl. symmetry. apply Hk.
      cbn. tauto. }
  replace (match_here (Or (OneOf _) (Or _ _)) None (String c w')) with (@None string).
  2:{ unfold match_here in *. cbn [rmatch OneOf Plus]. rewrite Hsep, Hop. symmetry. apply Hk.
      cbn. tauto. }
  unfold match_here, Plus. cbn [rmatch]. rewrite Hc.
  rewrite word_body_matches; [reflexivity|assumption|lia].
Qed.

Lemma lex_identifier w :
  identifier w -> Lexer_process Teacup_lexer w = [Token "word" w 0 (String.length w)].
Proof.
  intros H. unfold Lexer_process, split.
  assert (Hs : split_from (re Teacup_lexer) None 0 "" w
               = Some "" :: captures 8 5 w ++ [Some ""]).
  { pose proof (word_rule_first w H) as Hf. destruct w as [|c w']; [destruct H as (_ & [] & _)|].
    cbn [split_from]. rewrite Hf.
    cbn [String.length Nat.sub Nat.eqb].
    replace (substring 0 (S (String.length w')) (String c w')) with (String c w')
      by (symmetry; apply (substring_all (String c w'))).
    replace (String.length w' - 0) with (String.length w') by lia.
    rewrite split_from_skip. reflexivity. }
  rewrite Hs. cbn [captures seq map Nat.eqb app].
  cbn [map_pieces types Teacup_lexer newLexer].
  destruct w as [|c w']; [destruct H as (_ & [] & _)|]. cbn. reflexivity.
Qed.

(** X20: A text of word characters that does not start with a digit and is
    not one of the fourteen reserved words is lexed as one word token, also
    when it starts with a reserved word (letter, index, android); as a
    program it evaluates to its binding in the root environment and raises
    ReferenceError 'Undefined variable: '<name>'.' when it has none. *)
Theorem identifier_program (n : nat) (w : string) :
  identifier w ->
  Lexer_process Teacup_lexer w = [Token "word" w 0 (String.length w)]
  /\ teacup (S n) w
     = match env_get initial_store 0 w with
       | Some v => Ret v
       | None => Throw (ReferenceError ("Undefined variable: '" +:+ w +:+ "'."))
       end.
Proof.
  intros H. split; [now apply lex_identifier|].
  unfold teacup. rewrite (lex_identifier w H).
  change (tagPrefixOperators [Token "word" w 0 (String.length w)])
    with [Token "word" w 0 (String.length w)].
  change (Parser_process Teacup_parser [Token "word" w 0 (String.length w)])
    with (Ret (A := slot) (Obj (Tok (Token "word" w 0 (String.length w))))).
  cbn [obind Interpreter_process].
  change (eval Teacup_interpreter (S n) (Tok (Token "word" w 0 (String.length w)))
            (env Teacup_interpreter) initial_store)
    with (resolve (Some 0) w initial_store).
  unfold resolve, env_get. destruct (lookup_chain _ _ _ _); reflexivity.
Qed.

Lemma identifier_program_witness :
  Lexer_process Teacup_lexer "letter" = [Token "word" "letter" 0 6]
  /\ teacup 1 "letter" = Throw (ReferenceError "Undefined variable: 'letter'.").
Proof.
  apply (identifier_program 0 "letter").
  split; [reflexivity|split; [reflexivity|]]. cbn. intuition discriminate.
Defined.
